(** * Guild-scoped music queue, track serialization and player seek

    A shallow embedding of [bot/music/track.py], [bot/music/queue.py]
    and the [seek] method of [bot/music/player.py], followed by the
    properties of the queue cursor, the capacity bound, the track
    round trip and the seek guard.

    Python integers are [Z]; a Python [list] is a Rocq [list] indexed
    through the helpers of module [Py], which write out Python's
    treatment of negative and out-of-range indices; a [dict] with string
    keys is a [gmap string _]; an exception is an explicit [Raise]
    outcome carrying the state reached when it was raised. *)

From Stdlib Require Import ZArith Lia.
From stdpp Require Import gmap strings list pretty.

Local Open Scope Z_scope.

(** ** Python list primitives *)

Module Py.
Section ListOps.
Context {A : Type}.

Definition len (l : list A) : Z := Z.of_nat (length l).

(** Position denoted by a slice bound [k] in [l[:k]] / [l[k:]] and by
    the index of [list.insert]: a negative bound counts from the end,
    and the result is clamped into [0 .. len l]. *)
Definition bound (l : list A) (k : Z) : nat :=
  if k <? 0 then Z.to_nat (Z.max 0 (k + len l))
  else Z.to_nat (Z.min k (len l)).

(** [l[:k]] *)
Definition slice_to (l : list A) (k : Z) : list A := take (bound l k) l.

(** [l[k:]] *)
Definition slice_from (l : list A) (k : Z) : list A := drop (bound l k) l.

(** [l.insert(i, x)]: never fails, an index past either end inserts
    at that end. *)
Definition insert (l : list A) (i : Z) (x : A) : list A :=
  take (bound l i) l ++ x :: drop (bound l i) l.

(** Position denoted by a subscript [l[i]] / [l.pop(i)]: a negative
    index counts from the end; [None] stands for [IndexError]. *)
Definition subscript (l : list A) (i : Z) : option nat :=
  let j := if i <? 0 then i + len l else i in
  if (0 <=? j) && (j <? len l) then Some (Z.to_nat j) else None.

(** [l[i]] *)
Definition getitem (l : list A) (i : Z) : option A :=
  match subscript l i with
  | Some n => l !! n
  | None => None
  end.

(** [l.pop(i)]: the removed element and the remaining list. *)
Definition pop (l : list A) (i : Z) : option (A * list A) :=
  match subscript l i with
  | Some n =>
      match l !! n with
      | Some x => Some (x, delete n l)
      | None => None
      end
  | None => None
  end.
End ListOps.
End Py.

(** ** Values stored in a [dict[str, Any]] *)

Inductive pyval : Type :=
  | PNone
  | PStr (s : string)
  | PInt (z : Z).

(** [data.get(key, default)] *)
Definition dict_get (data : gmap string pyval) (key : string) (default : pyval) : pyval :=
  match data !! key with
  | Some v => v
  | None => default
  end.

(** Reading a dynamically typed value at the type a dataclass field is
    annotated with.  Python stores whatever it is given; the typed
    record below has no inhabitant for a value of another type, and
    the reading then yields [None]. *)
Definition as_str (v : pyval) : option string :=
  match v with PStr s => Some s | _ => None end.

Definition as_int (v : pyval) : option Z :=
  match v with PInt z => Some z | _ => None end.

Definition as_opt_str (v : pyval) : option (option string) :=
  match v with PNone => Some None | PStr s => Some (Some s) | _ => None end.

Definition as_opt_int (v : pyval) : option (option Z) :=
  match v with PNone => Some None | PInt z => Some (Some z) | _ => None end.

Definition of_opt_str (o : option string) : pyval :=
  match o with Some s => PStr s | None => PNone end.

Definition of_opt_int (o : option Z) : pyval :=
  match o with Some z => PInt z | None => PNone end.

(** ** Python string primitives *)

Module PyStr.
(** [len(s)]; a character of the model stands for one character of the
    Python string. *)
Definition len (s : string) : Z := Z.of_nat (String.length s).

(** The first [n] characters of [s], all of [s] when it has fewer. *)
Fixpoint first (n : nat) (s : string) : string :=
  match n, s with
  | S n', String c s' => String c (first n' s')
  | _, _ => EmptyString
  end.

(** [s[:k]]: a negative bound counts from the end, and the cut is
    brought into [0 .. len s]. *)
Definition slice_to (s : string) (k : Z) : string :=
  first (if k <? 0 then Z.to_nat (Z.max 0 (k + len s))
         else Z.to_nat (Z.min k (len s))) s.
End PyStr.

(** ** track.py *)

(** [datetime] values, as a count of clock ticks. *)
Definition datetime : Type := Z.

Module Track.
Record t : Type := mk {
  url : string;
  title : string;
  duration : Z;
  thumbnail : option string;
  webpage_url : option string;
  stream_url : option string;
  source : string;
  requester_id : option Z;
  requester_name : string;
  added_at : datetime
}.

#[global] Instance t_eq_dec : EqDecision t.
Proof. solve_decision. Defined.

(** [Track.to_dict] *)
Definition to_dict (self : t) : gmap string pyval :=
  <["url" := PStr (url self)]>
  (<["title" := PStr (title self)]>
  (<["duration" := PInt (duration self)]>
  (<["thumbnail" := of_opt_str (thumbnail self)]>
  (<["webpage_url" := of_opt_str (webpage_url self)]>
  (<["source" := PStr (source self)]>
  (<["requester_id" := of_opt_int (requester_id self)]>
  (<["requester_name" := PStr (requester_name self)]> ∅))))))).

(** [Track.from_dict].  The constructor is not given [stream_url] nor
    [added_at], so they take their defaults: [None], and the value
    [datetime.now()] reads from the clock, here the argument [now]. *)
Definition from_dict (now : datetime) (data : gmap string pyval) : option t :=
  u ← as_str (dict_get data "url" (PStr ""));
  ti ← as_str (dict_get data "title" (PStr "Unknown Title"));
  d ← as_int (dict_get data "duration" (PInt 0));
  th ← as_opt_str (dict_get data "thumbnail" PNone);
  w ← as_opt_str (dict_get data "webpage_url" PNone);
  s ← as_str (dict_get data "source" (PStr "unknown"));
  ri ← as_opt_int (dict_get data "requester_id" PNone);
  rn ← as_str (dict_get data "requester_name" (PStr "Unknown"));
  Some (mk u ti d th w None s ri rn now).

End Track.

(** ** queue.py *)

Module LoopMode.
Inductive t : Type := OFF | ONE | ALL.

#[global] Instance t_eq_dec : EqDecision t.
Proof. solve_decision. Defined.

Definition value (m : t) : string :=
  match m with OFF => "off" | ONE => "one" | ALL => "all" end.

(** [LoopMode(s)]: lookup of a member by value; [None] stands for the
    [ValueError] raised when no member has that value. *)
Definition of_value (s : string) : option t :=
  if decide (s = "off") then Some OFF
  else if decide (s = "one") then Some ONE
  else if decide (s = "all") then Some ALL
  else None.
End LoopMode.

Inductive exn : Type := IndexError | ValueError.

Module MusicQueue.
Record t : Type := mk {
  _tracks : list Track.t;
  _current_index : Z;
  _loop_mode : LoopMode.t;
  _max_size : Z;
  _history : list Track.t
}.

(** Result of a method call: the returned value or the exception
    raised, each with the queue as the call leaves it. *)
Inductive outcome (R : Type) : Type :=
  | Return (r : R) (q : t)
  | Raise (e : exn) (q : t).
Arguments Return {R} r q.
Arguments Raise {R} e q.

Definition set_tracks (l : list Track.t) (q : t) : t :=
  mk l (_current_index q) (_loop_mode q) (_max_size q) (_history q).
Definition set_current_index (i : Z) (q : t) : t :=
  mk (_tracks q) i (_loop_mode q) (_max_size q) (_history q).
Definition set_loop_mode (m : LoopMode.t) (q : t) : t :=
  mk (_tracks q) (_current_index q) m (_max_size q) (_history q).
Definition set_history (h : list Track.t) (q : t) : t :=
  mk (_tracks q) (_current_index q) (_loop_mode q) (_max_size q) h.

(** [MusicQueue(max_size)] *)
Definition __init__ (max_size : Z) : t := mk [] 0 LoopMode.OFF max_size [].

Definition size (q : t) : Z := Py.len (_tracks q).

Definition is_empty (q : t) : bool := size q =? 0.

Definition current (q : t) : option Track.t :=
  if (0 <=? _current_index q) && (_current_index q <? size q)
  then Py.getitem (_tracks q) (_current_index q)
  else None.

Definition upcoming (q : t) : list Track.t :=
  if _current_index q + 1 <? size q
  then Py.slice_from (_tracks q) (_current_index q + 1)
  else [].

Definition add (track : Track.t) (q : t) : outcome bool :=
  if _max_size q <=? size q then Return false q
  else Return true (set_tracks (_tracks q ++ [track]) q).

Definition add_many (tracks : list Track.t) (q : t) : outcome Z :=
  let available := _max_size q - size q in
  let to_add := Py.slice_to tracks available in
  Return (Py.len to_add) (set_tracks (_tracks q ++ to_add) q).

Definition insert (index : Z) (track : Track.t) (q : t) : outcome bool :=
  if _max_size q <=? size q then Return false q
  else
    let actual_index := Z.max (_current_index q + 1) (Z.min index (size q)) in
    Return true (set_tracks (Py.insert (_tracks q) actual_index track) q).

Definition remove (index : Z) (q : t) : outcome (option Track.t) :=
  if negb ((0 <=? index) && (index <? size q)) then Return None q
  else
    match Py.pop (_tracks q) index with
    | None => Raise IndexError q
    | Some (track, rest) =>
        let q1 := set_tracks rest q in
        let q2 :=
          if index <? _current_index q1
          then set_current_index (_current_index q1 - 1) q1
          else if (index =? _current_index q1) && (size q1 <=? _current_index q1)
          then set_current_index (Z.max 0 (size q1 - 1)) q1
          else q1 in
        Return (Some track) q2
    end.

Definition clear (q : t) : outcome unit :=
  Return tt (set_current_index 0 (set_tracks [] q)).

(** The first step of [next]: the current track, when there is one,
    is appended to the history, which is cut back to its last 50
    entries by [pop(0)]. *)
Definition record_current (q : t) : outcome unit :=
  match current q with
  | Some c =>
      let h := _history q ++ [c] in
      if 50 <? Py.len h
      then match Py.pop h 0 with
           | Some (_, h') => Return tt (set_history h' q)
           | None => Raise IndexError (set_history h q)
           end
      else Return tt (set_history h q)
  | None => Return tt q
  end.

Definition next (q : t) : outcome (option Track.t) :=
  if is_empty q then Return None q
  else
    match record_current q with
    | Raise e q1 => Raise e q1
    | Return _ q1 =>
        match _loop_mode q1 with
        | LoopMode.ONE => Return (current q1) q1
        | mode =>
            if _current_index q1 + 1 <? size q1 then
              let q2 := set_current_index (_current_index q1 + 1) q1 in
              Return (current q2) q2
            else
              match mode with
              | LoopMode.ALL =>
                  let q2 := set_current_index 0 q1 in
                  Return (current q2) q2
              | _ => Return None q1
              end
        end
    end.

(** [shuffle]: [random.shuffle] rearranges the list it is given; the
    arrangement it picks is the argument [rnd]. *)
Definition shuffle (rnd : list Track.t → list Track.t) (q : t) : outcome unit :=
  if _current_index q + 1 <? size q then
    let upcoming := Py.slice_from (_tracks q) (_current_index q + 1) in
    let upcoming := rnd upcoming in
    Return tt (set_tracks (Py.slice_to (_tracks q) (_current_index q + 1) ++ upcoming) q)
  else Return tt q.

Definition move (from_index to_index : Z) (q : t) : outcome bool :=
  if negb (((0 <=? from_index) && (from_index <? size q))
           && ((0 <=? to_index) && (to_index <? size q)))
  then Return false q
  else
    match Py.pop (_tracks q) from_index with
    | None => Raise IndexError q
    | Some (track, rest) =>
        let q1 := set_tracks (Py.insert rest to_index track) q in
        let ci := _current_index q1 in
        let q2 :=
          if from_index =? ci then set_current_index to_index q1
          else if (from_index <? ci) && (ci <=? to_index)
          then set_current_index (ci - 1) q1
          else if (to_index <=? ci) && (ci <? from_index)
          then set_current_index (ci + 1) q1
          else q1 in
        Return true q2
    end.

Definition restore_state (tracks : list Track.t) (current_index : Z)
    (loop_mode : string) (q : t) : outcome unit :=
  let q1 := set_tracks tracks q in
  let q2 := set_current_index
              (Z.min current_index (Z.max 0 (Py.len tracks - 1))) q1 in
  match LoopMode.of_value loop_mode with
  | Some m => Return tt (set_loop_mode m q2)
  | None => Raise ValueError q2
  end.

(** Sequences of [add] / [remove] / [insert] calls. *)
Inductive call : Type :=
  | Add (track : Track.t)
  | Remove (index : Z)
  | Insert (index : Z) (track : Track.t).

Definition state {R : Type} (o : outcome R) : t :=
  match o with Return _ q => q | Raise _ q => q end.

Definition raised {R : Type} (o : outcome R) : bool :=
  match o with Return _ _ => false | Raise _ _ => true end.

Definition perform (c : call) (q : t) : outcome unit :=
  match c with
  | Add track => match add track q with
                 | Return _ q' => Return tt q' | Raise e q' => Raise e q' end
  | Remove index => match remove index q with
                    | Return _ q' => Return tt q' | Raise e q' => Raise e q' end
  | Insert index track => match insert index track q with
                          | Return _ q' => Return tt q' | Raise e q' => Raise e q' end
  end.

(** The calls are made in order; an exception ends the sequence. *)
Fixpoint perform_all (cs : list call) (q : t) : outcome unit :=
  match cs with
  | [] => Return tt q
  | c :: cs' =>
      match perform c q with
      | Return _ q' => perform_all cs' q'
      | Raise e q' => Raise e q'
      end
  end.

(** [n] successive calls of [next], with the value the last one
    returned ([None] before the first call). *)
Fixpoint next_n (n : nat) (q : t) : outcome (option Track.t) :=
  match n with
  | O => Return None q
  | S n' =>
      match next_n n' q with
      | Return _ q' => next q'
      | Raise e q' => Raise e q'
      end
  end.
(** *** The remaining methods of [MusicQueue] *)

(** The [loop_mode] property setter. *)
Definition loop_mode_setter (mode : LoopMode.t) (q : t) : outcome unit :=
  Return tt (set_loop_mode mode q).

(** The [tracks] property: a copy of the list. *)
Definition tracks (q : t) : list Track.t := _tracks q.

(** [sum(t.duration for t in self._tracks)]: the durations are added
    to [0] from left to right. *)
Definition total_duration (q : t) : Z :=
  fold_left (λ acc track, acc + Track.duration track) (_tracks q) 0.

Definition clear_upcoming (q : t) : outcome Z :=
  if _current_index q + 1 <? size q then
    let removed := size q - _current_index q - 1 in
    Return removed
      (set_tracks (Py.slice_to (_tracks q) (_current_index q + 1)) q)
  else Return 0 q.

Definition previous (q : t) : outcome (option Track.t) :=
  if 0 <? _current_index q then
    let q1 := set_current_index (_current_index q - 1) q in
    Return (current q1) q1
  else if bool_decide (_loop_mode q = LoopMode.ALL) && (0 <? size q) then
    let q1 := set_current_index (size q - 1) q in
    Return (current q1) q1
  else Return None q.

Definition jump (index : Z) (q : t) : outcome (option Track.t) :=
  if (0 <=? index) && (index <? size q) then
    let q1 := set_current_index index q in
    Return (current q1) q1
  else Return None q.

(** The dictionary built by [get_state]: its three entries. *)
Record saved_state : Type := mk_saved_state {
  saved_tracks : list Track.t;
  saved_current_index : Z;
  saved_loop_mode : string
}.

Definition get_state (q : t) : saved_state :=
  mk_saved_state (_tracks q) (_current_index q) (LoopMode.value (_loop_mode q)).

(** A call of any method that changes the queue, [restore_state]
    apart; [Shuffle] carries the rearrangement [random.shuffle]
    makes. *)
Inductive method : Type :=
  | CallAdd (track : Track.t)
  | CallAddMany (batch : list Track.t)
  | CallInsert (index : Z) (track : Track.t)
  | CallRemove (index : Z)
  | CallClear
  | CallClearUpcoming
  | CallNext
  | CallPrevious
  | CallJump (index : Z)
  | CallShuffle (rnd : list Track.t → list Track.t)
  | CallMove (from_index to_index : Z)
  | CallSetLoopMode (mode : LoopMode.t).

(** The call's effect, its returned value dropped. *)
Definition discard {R : Type} (o : outcome R) : outcome unit :=
  match o with
  | Return _ q => Return tt q
  | Raise e q => Raise e q
  end.

Definition invoke (m : method) (q : t) : outcome unit :=
  match m with
  | CallAdd track => discard (add track q)
  | CallAddMany batch => discard (add_many batch q)
  | CallInsert index track => discard (insert index track q)
  | CallRemove index => discard (remove index q)
  | CallClear => clear q
  | CallClearUpcoming => discard (clear_upcoming q)
  | CallNext => discard (next q)
  | CallPrevious => discard (previous q)
  | CallJump index => discard (jump index q)
  | CallShuffle rnd => shuffle rnd q
  | CallMove from_index to_index => discard (move from_index to_index q)
  | CallSetLoopMode mode => loop_mode_setter mode q
  end.

(** The calls are made in order; an exception ends the sequence. *)
Fixpoint invoke_all (ms : list method) (q : t) : outcome unit :=
  match ms with
  | [] => Return tt q
  | m :: ms' =>
      match invoke m q with
      | Return _ q' => invoke_all ms' q'
      | Raise e q' => Raise e q'
      end
  end.
End MusicQueue.

(** ** player.py: the player state and [seek] *)

(** [FFMPEG_OPTIONS] of extractor.py, as [get_ffmpeg_options] copies it. *)
Definition FFMPEG_before_options : string :=
  "-reconnect 1 -reconnect_streamed 1 -reconnect_delay_max 5".
Definition FFMPEG_options : string := "-vn".

Module MusicPlayer.
Section Collaborators.
(** The voice connection and the audio sources belong to the chat
    platform's library, and the volume multiplier and the activity
    time stamp are floating-point numbers: their types are left
    open. *)
Context {float VoiceClient AudioSource : Type}.

Record Config : Type := mkConfig {
  max_queue_size : Z;
  default_volume : Z;
  inactivity_timeout : Z
}.

(** The fields of a player that hold data.  The handles to the
    database, the extractor, the three observers and the watchdog
    task are collaborators which [seek] reaches only through the
    calls gathered in [world].  [_current_position] is annotated
    [float] but only ever assigned the integers [0] and [seconds]. *)
Record t : Type := mk {
  guild_id : Z;
  config : Config;
  queue : MusicQueue.t;
  _voice_client : option VoiceClient;
  _volume : float;
  _is_playing : bool;
  _current_position : Z;
  _paused : bool;
  _last_activity : float
}.

(** What the collaborators answer during one call of [seek].  An
    answer [None] of a call other than [get_stream_url] stands for an
    exception; [get_stream_url] catches its own and answers [None]
    when no URL could be obtained. *)
Record world : Type := mkWorld {
  get_stream_url : Track.t → option string;
  voice_stop : VoiceClient → option VoiceClient;
  FFmpegPCMAudio : string → string → string → option AudioSource;
  PCMVolumeTransformer : AudioSource → float → option AudioSource;
  voice_play : VoiceClient → AudioSource → option VoiceClient
}.

Definition set_voice_client (vc : option VoiceClient) (p : t) : t :=
  mk (guild_id p) (config p) (queue p) vc (_volume p) (_is_playing p)
     (_current_position p) (_paused p) (_last_activity p).
Definition set_current_position (s : Z) (p : t) : t :=
  mk (guild_id p) (config p) (queue p) (_voice_client p) (_volume p)
     (_is_playing p) s (_paused p) (_last_activity p).

Definition current_track (p : t) : option Track.t := MusicQueue.current (queue p).

(** [seek].  Every exception raised inside the [try] block is caught
    and turned into the result [False]; what was done to the voice
    connection before it stays done. *)
Definition seek (w : world) (seconds : Z) (p : t) : bool * t :=
  match MusicQueue.current (queue p), _voice_client p with
  | Some track, Some vc =>
      if (seconds <? 0)
         || ((0 <? Track.duration track) && (Track.duration track <=? seconds))
      then (false, p)
      else
        match get_stream_url w track with
        | None => (false, p)
        | Some stream_url =>
            if decide (stream_url = "") then (false, p)
            else
              match voice_stop w vc with
              | None => (false, p)
              | Some vc1 =>
                  let p1 := set_voice_client (Some vc1) p in
                  let before := "-ss " +:+ pretty seconds +:+ " "
                                +:+ FFMPEG_before_options in
                  match FFmpegPCMAudio w stream_url before FFMPEG_options with
                  | None => (false, p1)
                  | Some source =>
                      match PCMVolumeTransformer w source (_volume p1) with
                      | None => (false, p1)
                      | Some source =>
                          match voice_play w vc1 source with
                          | None => (false, p1)
                          | Some vc2 =>
                              (true, set_current_position seconds
                                       (set_voice_client (Some vc2) p1))
                          end
                      end
                  end
              end
        end
  | _, _ => (false, p)
  end.
End Collaborators.
End MusicPlayer.

(** ** Specification predicates *)

(** The cursor of a queue with tracks points at one of them; the cursor
    of an empty queue is [0]. *)
Definition cursor_ok (q : MusicQueue.t) : Prop :=
  0 <= MusicQueue._current_index q < Z.max 1 (MusicQueue.size q).

(** Two tracks agree on every field other than [stream_url]. *)
Definition same_but_stream_url (a b : Track.t) : Prop :=
  Track.url a = Track.url b
  ∧ Track.title a = Track.title b
  ∧ Track.duration a = Track.duration b
  ∧ Track.thumbnail a = Track.thumbnail b
  ∧ Track.webpage_url a = Track.webpage_url b
  ∧ Track.source a = Track.source b
  ∧ Track.requester_id a = Track.requester_id b
  ∧ Track.requester_name a = Track.requester_name b
  ∧ Track.added_at a = Track.added_at b.

(** The rearrangement a [Shuffle] call carries is a permutation, as
    [random.shuffle] makes one. *)
Definition permuting (m : MusicQueue.method) : Prop :=
  match m with
  | MusicQueue.CallShuffle rnd => ∀ l, rnd l ≡ₚ l
  | _ => True
  end.

(** What every method other than [restore_state] keeps: a valid
    cursor, at most 50 history entries, the capacity [cap] the queue
    was made with and, when that is not negative, at most [cap]
    tracks. *)
Definition history_ok (q : MusicQueue.t) : Prop :=
  Py.len (MusicQueue._history q) <= 50.

Definition capacity_ok (cap : Z) (q : MusicQueue.t) : Prop :=
  MusicQueue._max_size q = cap ∧ (0 <= cap → MusicQueue.size q <= cap).

Definition sound (cap : Z) (q : MusicQueue.t) : Prop :=
  cursor_ok q ∧ history_ok q ∧ capacity_ok cap q.

(** ** Sample data *)

(** [create_test_track] of tests/test_queue.py, built at clock value
    [now]. *)
Definition create_test_track (now : datetime) (title : string) (duration : Z) : Track.t :=
  Track.mk "https://example.com/test" title duration None None None
           "test" (Some 123) "TestUser" now.

Definition track_A : Track.t := create_test_track 0 "A" 180.
Definition track_B : Track.t := create_test_track 0 "B" 200.
Definition track_C : Track.t := create_test_track 0 "C" 300.
Definition track_D : Track.t := create_test_track 0 "D" 120.
Definition track_E : Track.t := create_test_track 0 "E" 240.

(** The queue holding [tracks] with the cursor at [index]. *)
Definition queue_of (max_size : Z) (tracks : list Track.t) (index : Z)
    (mode : LoopMode.t) : MusicQueue.t :=
  MusicQueue.mk tracks index mode max_size [].

(** A connected player over [queue_of 500 [A; B; C] 0 OFF], with the
    open types taken to be [Z] and [unit], and collaborators that
    always succeed. *)
Definition sample_player : @MusicPlayer.t Z unit :=
  MusicPlayer.mk 1 (MusicPlayer.mkConfig 500 100 300)
    (queue_of 500 [track_A; track_B; track_C] 0 LoopMode.OFF)
    (Some tt) 1 true 42 false 0.

Definition sample_world : @MusicPlayer.world Z unit unit :=
  MusicPlayer.mkWorld (λ _, Some "https://stream.example/audio")
    (λ vc, Some vc) (λ _ _ _, Some tt) (λ src _, Some src) (λ vc _, Some vc).

(** A session that uses every method of the queue. *)
Definition sample_calls : list MusicQueue.method :=
  [ MusicQueue.CallAddMany [track_A; track_B; track_C; track_D];
    MusicQueue.CallSetLoopMode LoopMode.ALL;
    MusicQueue.CallNext;
    MusicQueue.CallInsert 0 track_E;
    MusicQueue.CallShuffle reverse;
    MusicQueue.CallMove 0 3;
    MusicQueue.CallRemove 1;
    MusicQueue.CallPrevious;
    MusicQueue.CallJump 2;
    MusicQueue.CallAdd track_A;
    MusicQueue.CallClearUpcoming;
    MusicQueue.CallClear ].

(** * Properties *)

(** ** Facts about the list primitives *)

Section PyFacts.
Context {A : Type}.
Implicit Types (l : list A) (i k : Z) (x : A).

Lemma len_nonneg l : 0 <= Py.len l.
Proof. unfold Py.len. lia. Qed.

Lemma len_app l1 l2 : Py.len (l1 ++ l2) = Py.len l1 + Py.len l2.
Proof. unfold Py.len. rewrite length_app. lia. Qed.

Lemma bound_le l k : (Py.bound l k <= length l)%nat.
Proof. unfold Py.bound, Py.len. destruct (Z.ltb_spec k 0); lia. Qed.

Lemma bound_in_range l k :
  0 <= k <= Py.len l → Py.bound l k = Z.to_nat k.
Proof.
  intros Hk. unfold Py.bound.
  destruct (Z.ltb_spec k 0); [lia|]. f_equal. lia.
Qed.

Lemma bound_past_end l k : Py.len l <= k → Py.bound l k = length l.
Proof.
  intros Hk. unfold Py.bound. pose proof (len_nonneg l).
  destruct (Z.ltb_spec k 0); [lia|]. unfold Py.len in *. lia.
Qed.

Lemma slice_to_from l k : Py.slice_to l k ++ Py.slice_from l k = l.
Proof. apply take_drop. Qed.

Lemma len_slice_to l k : Py.len (Py.slice_to l k) = Z.of_nat (Py.bound l k).
Proof.
  unfold Py.slice_to, Py.len. rewrite length_take.
  pose proof (bound_le l k). lia.
Qed.

Lemma len_insert l i x : Py.len (Py.insert l i x) = Py.len l + 1.
Proof.
  unfold Py.insert, Py.len. pose proof (bound_le l i).
  rewrite length_app, length_take. simpl. rewrite length_drop. lia.
Qed.

Lemma subscript_in_range l i :
  0 <= i < Py.len l → Py.subscript l i = Some (Z.to_nat i).
Proof.
  intros Hi. unfold Py.subscript.
  destruct (Z.ltb_spec i 0); [lia|].
  destruct (Z.leb_spec 0 i); [|lia].
  destruct (Z.ltb_spec i (Py.len l)); [|lia]. reflexivity.
Qed.

Lemma lookup_in_range l i :
  0 <= i < Py.len l → is_Some (l !! Z.to_nat i).
Proof. intros Hi. apply lookup_lt_is_Some. unfold Py.len in Hi. lia. Qed.

Lemma getitem_in_range l i :
  0 <= i < Py.len l → Py.getitem l i = l !! Z.to_nat i.
Proof. intros Hi. unfold Py.getitem. by rewrite subscript_in_range. Qed.

Lemma pop_in_range l i :
  0 <= i < Py.len l →
  ∃ x, l !! Z.to_nat i = Some x ∧ Py.pop l i = Some (x, delete (Z.to_nat i) l).
Proof.
  intros Hi. destruct (lookup_in_range l i Hi) as [x Hx].
  exists x. split; [done|].
  unfold Py.pop. by rewrite subscript_in_range, Hx.
Qed.

Lemma len_delete l (n : nat) :
  (n < length l)%nat → Py.len (delete n l) = Py.len l - 1.
Proof.
  intros Hn. unfold Py.len. rewrite length_delete.
  - lia.
  - by apply lookup_lt_is_Some.
Qed.
End PyFacts.

(** ** The cursor invariant under [add], [remove] and [insert] *)

Section CursorInvariant.
Import MusicQueue.
Implicit Types (q : MusicQueue.t) (track : Track.t).

Lemma cursor_ok_init max_size : cursor_ok (__init__ max_size).
Proof. unfold cursor_ok, size. simpl. lia. Qed.

Lemma cursor_ok_valid q :
  cursor_ok q → 0 < size q → 0 <= _current_index q < size q.
Proof. unfold cursor_ok. lia. Qed.

Lemma current_empty q : size q = 0 → current q = None.
Proof.
  intros Hs. unfold current. rewrite Hs.
  destruct (Z.leb_spec 0 (_current_index q)),
           (Z.ltb_spec (_current_index q) 0); simpl; try done; lia.
Qed.

Lemma add_cursor_ok track q :
  cursor_ok q → ∃ b q', add track q = Return b q' ∧ cursor_ok q'.
Proof.
  intros Hq. unfold add.
  destruct (_max_size q <=? size q); [by eauto|].
  eexists _, _. split; [done|].
  unfold cursor_ok, size in *. simpl. rewrite len_app.
  pose proof (len_nonneg (_tracks q)). unfold Py.len at 2. simpl. lia.
Qed.

Lemma insert_cursor_ok index track q :
  cursor_ok q → ∃ b q', insert index track q = Return b q' ∧ cursor_ok q'.
Proof.
  intros Hq. unfold insert.
  destruct (_max_size q <=? size q); [by eauto|].
  eexists _, _. split; [done|].
  unfold cursor_ok, size in *. simpl. rewrite len_insert.
  pose proof (len_nonneg (_tracks q)). lia.
Qed.

Lemma remove_cursor_ok index q :
  cursor_ok q → ∃ r q', remove index q = Return r q' ∧ cursor_ok q'.
Proof.
  intros Hq. unfold remove.
  destruct (Z.leb_spec 0 index), (Z.ltb_spec index (size q)); simpl;
    try by eauto.
  destruct (pop_in_range (_tracks q) index) as (x & Hx & ->); [done|].
  eexists _, _. split; [done|].
  assert (Hlen : Py.len (delete (Z.to_nat index) (_tracks q)) = size q - 1).
  { apply len_delete. unfold size, Py.len in *. lia. }
  unfold cursor_ok, size in *. simpl.
  destruct (Z.ltb_spec index (_current_index q)); simpl; [lia|].
  destruct (Z.eqb_spec index (_current_index q)); simpl; [|lia].
  rewrite Hlen.
  destruct (Z.leb_spec (Py.len (_tracks q) - 1) (_current_index q));
    simpl; rewrite ?Hlen; lia.
Qed.

Lemma perform_cursor_ok c q :
  cursor_ok q → ∃ q', perform c q = Return tt q' ∧ cursor_ok q'.
Proof.
  intros Hq. destruct c as [track|index|index track]; simpl.
  - destruct (add_cursor_ok track q Hq) as (b & q' & -> & Hq'). eauto.
  - destruct (remove_cursor_ok index q Hq) as (r & q' & -> & Hq'). eauto.
  - destruct (insert_cursor_ok index track q Hq) as (b & q' & -> & Hq'). eauto.
Qed.

Lemma perform_all_cursor_ok cs q :
  cursor_ok q → ∃ q', perform_all cs q = Return tt q' ∧ cursor_ok q'.
Proof.
  revert q. induction cs as [|c cs IH]; intros q Hq; simpl.
  - eauto.
  - destruct (perform_cursor_ok c q Hq) as (q1 & -> & Hq1). by apply IH.
Qed.

(** C1.  Starting from the empty queue, every finite sequence of
    [add], [remove] and [insert] calls runs to its end without an
    exception and leaves a queue whose cursor satisfies
    [0 <= current_index < size] when the queue has tracks, and whose
    current track is [None] when it has none. *)
Theorem cursor_invariant_add_remove_insert
    (max_size : Z) (cs : list MusicQueue.call) :
  ∃ q, perform_all cs (__init__ max_size) = Return tt q
       ∧ (0 < size q → 0 <= _current_index q < size q)
       ∧ (size q = 0 → current q = None).
Proof.
  destruct (perform_all_cursor_ok cs (__init__ max_size)) as (q & Hrun & Hq).
  { apply cursor_ok_init. }
  exists q. split; [done|]. split.
  - by apply cursor_ok_valid.
  - apply current_empty.
Qed.
End CursorInvariant.

(** ** [remove] at a valid index *)

Section Remove.
Import MusicQueue.
Implicit Types (q : MusicQueue.t) (track : Track.t).

Lemma current_in_range q :
  0 <= _current_index q < size q →
  current q = _tracks q !! Z.to_nat (_current_index q).
Proof.
  intros Hc. unfold current.
  destruct (Z.leb_spec 0 (_current_index q)); [|lia].
  destruct (Z.ltb_spec (_current_index q) (size q)); [|lia].
  simpl. by apply getitem_in_range.
Qed.

(** C2.  At a valid index, [remove] returns the track that was at
    that index and deletes it from the list, all other tracks keeping
    their order.  An index below the cursor moves the cursor down by
    one; an index equal to the cursor leaves the cursor at the
    smaller of its old value and the new last index, and when this
    empties the queue the current track is [None].  In a queue of
    three tracks with the cursor at 1, [remove(0)] leaves the second
    and third tracks, the cursor at 0 and the former second track
    current. *)
Theorem remove_valid_index q index :
  0 <= index < size q →
  ∃ track q',
    remove index q = Return (Some track) q'
    ∧ Py.getitem (_tracks q) index = Some track
    ∧ _tracks q' = delete (Z.to_nat index) (_tracks q)
    ∧ size q' = size q - 1
    ∧ (index < _current_index q → _current_index q' = _current_index q - 1)
    ∧ (index = _current_index q → 0 < size q' →
       _current_index q' = Z.min (_current_index q) (size q' - 1))
    ∧ (index = _current_index q → size q' = 0 → current q' = None)
    ∧ (size q = 3 → _current_index q = 1 → index = 0 →
       _current_index q' = 0
       ∧ _tracks q' = drop 1 (_tracks q)
       ∧ current q' = _tracks q !! 1%nat).
Proof.
  intros Hi. unfold remove.
  destruct (Z.leb_spec 0 index); [|lia].
  destruct (Z.ltb_spec index (size q)); [|lia]. simpl.
  destruct (pop_in_range (_tracks q) index) as (x & Hx & ->); [done|].
  assert (Hlen : Py.len (delete (Z.to_nat index) (_tracks q)) = size q - 1).
  { apply len_delete. unfold size, Py.len in *. lia. }
  set (q1 := set_tracks (delete (Z.to_nat index) (_tracks q)) q).
  assert (Hs1 : size q1 = size q - 1) by done.
  change (_current_index q1) with (_current_index q).
  eexists x, _. split; [reflexivity|].
  split; [by rewrite getitem_in_range|].
  assert (Hscen : size q = 3 → _current_index q = 1 → index = 0 →
            drop 1 (_tracks q) = delete (Z.to_nat index) (_tracks q)
            ∧ current (set_current_index (_current_index q - 1) q1)
              = _tracks q !! 1%nat).
  { intros H3 Hc ->. destruct (_tracks q) as [|a l] eqn:Ht; [done|].
    split; [done|]. rewrite current_in_range.
    - subst q1. simpl. by rewrite Hc.
    - change (0 <= _current_index q - 1 < size q1). lia. }
  destruct (Z.ltb_spec index (_current_index q)) as [Hlt|Hge]; simpl.
  { repeat split; try done; try lia.
    - by destruct Hscen as [-> _].
    - by destruct Hscen as [_ ->]. }
  destruct (Z.eqb_spec index (_current_index q)) as [Heq|Hne]; simpl.
  - assert (Hsz : ∀ i, size (set_current_index i q1) = size q1) by done.
    destruct (Z.leb_spec (size q1) (_current_index q)) as [Hle|Hgt]; simpl;
      (split; [done|]); (split; [done|]); (split; [lia|]);
      (split; [intros _; rewrite ?Hsz; simpl; lia|]);
      (split; [intros _; apply current_empty|lia]).
  - repeat split; try done; lia.
Qed.
Lemma remove_valid_index_witness :
  0 <= 0 < size (queue_of 500 [track_A; track_B; track_C] 1 LoopMode.OFF)
  ∧ ∃ q', remove 0 (queue_of 500 [track_A; track_B; track_C] 1 LoopMode.OFF)
            = Return (Some track_A) q'
          ∧ _tracks q' = [track_B; track_C]
          ∧ _current_index q' = 0
          ∧ current q' = Some track_B.
Proof.
  assert (Hi : 0 <= 0 < size (queue_of 500 [track_A; track_B; track_C] 1 LoopMode.OFF)).
  { unfold size, Py.len. simpl. lia. }
  split; [exact Hi|].
  destruct (remove_valid_index _ 0 Hi)
    as (track & q' & Hr & Hg & Ht & _ & _ & _ & _ & Hs).
  destruct Hs as (Hc & _ & Hcur); [reflexivity..|].
  exists q'. injection Hg as <-.
  repeat split; assumption.
Defined.
End Remove.

(** ** [restore_state] *)

Section RestoreState.
Import MusicQueue.
Implicit Types (q : MusicQueue.t) (tracks : list Track.t).

Lemma of_value_value mode : LoopMode.of_value (LoopMode.value mode) = Some mode.
Proof. by destruct mode. Qed.

(** A restore with a cursor that is not negative leaves a valid
    cursor. *)
Lemma restore_state_nonneg_cursor_ok q tracks current_index mode :
  0 <= current_index →
  cursor_ok (state (restore_state tracks current_index (LoopMode.value mode) q)).
Proof.
  intros Hc. unfold restore_state. rewrite of_value_value.
  unfold cursor_ok, size. simpl. pose proof (len_nonneg tracks). lia.
Qed.

(** C3.  Restoring the one-track list with the cursor [-1] installs
    the list and keeps the cursor [-1]: the restored queue has a
    track, its cursor is below [0] and it has no current track. *)
Theorem restore_state_negative_index :
  ∃ q', restore_state [track_A] (-1) "off" (__init__ 500) = Return tt q'
        ∧ _tracks q' = [track_A]
        ∧ size q' = 1
        ∧ _current_index q' = -1
        ∧ ¬ (0 <= _current_index q' < size q')
        ∧ current q' = None.
Proof.
  eexists. split; [reflexivity|]. simpl.
  repeat split; try reflexivity. unfold size, Py.len. simpl. lia.
Qed.

(** C6.  [restore_state] installs the list it is given whatever its
    length and leaves [max_size] as it was, so the capacity bound is
    not kept: restoring three tracks into an empty queue of capacity
    two gives a queue larger than its capacity. *)
Theorem restore_state_exceeds_capacity :
  (∀ q tracks current_index mode,
     ∃ q', restore_state tracks current_index (LoopMode.value mode) q
             = Return tt q'
           ∧ _tracks q' = tracks
           ∧ _max_size q' = _max_size q)
  ∧ ∃ q', size (__init__ 2) <= _max_size (__init__ 2)
          ∧ _max_size (__init__ 2) < Py.len [track_A; track_B; track_C]
          ∧ restore_state [track_A; track_B; track_C] 0 "off" (__init__ 2)
              = Return tt q'
          ∧ _max_size q' < size q'.
Proof.
  split.
  - intros q tracks current_index mode. unfold restore_state.
    rewrite of_value_value. by eexists.
  - eexists. unfold size, Py.len. simpl.
    repeat split; try reflexivity; lia.
Qed.
End RestoreState.

(** ** Capacity: [add] and [add_many] *)

Section Capacity.
Import MusicQueue.
Implicit Types (q : MusicQueue.t) (tracks : list Track.t).

(** A full or overfull queue rejects [add] and is left as it was. *)
Lemma add_at_capacity track q :
  _max_size q <= size q → add track q = Return false q.
Proof. intros Hf. unfold add. by destruct (Z.leb_spec (_max_size q) (size q)); [|lia]. Qed.

(** With room for [k] tracks and a longer batch, [add_many] appends
    the first [k] tracks of the batch and returns [k]. *)
Lemma add_many_truncates tracks q :
  0 <= _max_size q - size q < Py.len tracks →
  add_many tracks q
  = Return (_max_size q - size q)
      (set_tracks (_tracks q ++ take (Z.to_nat (_max_size q - size q)) tracks) q).
Proof.
  intros Hk. unfold add_many.
  rewrite len_slice_to. unfold Py.slice_to.
  rewrite bound_in_range by lia. f_equal. lia.
Qed.

(** A queue exactly at capacity is left as it was by [add_many]. *)
Lemma add_many_exactly_full tracks q :
  _max_size q = size q → add_many tracks q = Return 0 q.
Proof.
  intros Hf. unfold add_many. rewrite Hf, Z.sub_diag.
  unfold Py.slice_to, Py.bound. simpl.
  rewrite Z.min_l by apply len_nonneg. simpl. rewrite app_nil_r.
  by destruct q.
Qed.

(** C5.  A queue of capacity 1 into which [restore_state] has put
    three tracks holds more than [max_size] tracks; [add_many] of a
    batch of three then computes the remaining capacity [-2], takes
    the batch without its last two tracks, appends that one track
    and returns 1. *)
Theorem add_many_over_capacity :
  let q := state (restore_state [track_A; track_B; track_C] 0 "off" (__init__ 1)) in
  _max_size q <= size q
  ∧ add track_D q = Return false q
  ∧ add_many [track_D; track_E; track_A] q
    = Return 1 (set_tracks [track_A; track_B; track_C; track_D] q).
Proof.
  simpl. unfold size, Py.len. simpl. split; [lia|]. split; reflexivity.
Qed.
End Capacity.

(** ** Track serialization *)

Section Serialization.
Implicit Types (t : Track.t) (now : datetime).

Lemma as_opt_str_of o : as_opt_str (of_opt_str o) = Some o.
Proof. by destruct o. Qed.

Lemma as_opt_int_of o : as_opt_int (of_opt_int o) = Some o.
Proof. by destruct o. Qed.

(** The keys of the persisted form. *)
Lemma to_dict_keys t :
  dom (Track.to_dict t)
  = list_to_set ["url"; "title"; "duration"; "thumbnail"; "webpage_url";
                 "source"; "requester_id"; "requester_name"].
Proof. unfold Track.to_dict. rewrite !dom_insert_L, dom_empty_L. set_solver. Qed.

(** C4 as stated fails: the round trip loses the time stamp as well
    as the stream URL.  A track made at clock value 0 and rebuilt at
    clock value 1 differs from the original in [added_at]. *)
Lemma from_dict_to_dict_added_at_differs :
  ∃ t', Track.from_dict 1 (Track.to_dict track_A) = Some t'
        ∧ ¬ same_but_stream_url track_A t'.
Proof.
  eexists. split; [reflexivity|].
  unfold same_but_stream_url. simpl. intros (_&_&_&_&_&_&_&_&H). discriminate H.
Qed.

(** C4 (amended).  The dictionary made by [to_dict] has no
    ["stream_url"] entry, and [from_dict] applied to it rebuilds the
    track's URL, title, duration, thumbnail, webpage URL, source and
    requester id and name; the rebuilt track has no stream URL and
    its [added_at] is the clock value at which it was rebuilt. *)
Theorem from_dict_to_dict t now :
  Track.to_dict t !! "stream_url" = None
  ∧ Track.from_dict now (Track.to_dict t)
    = Some (Track.mk (Track.url t) (Track.title t) (Track.duration t)
              (Track.thumbnail t) (Track.webpage_url t) None
              (Track.source t) (Track.requester_id t)
              (Track.requester_name t) now).
Proof.
  split.
  - unfold Track.to_dict. by simplify_map_eq.
  - unfold Track.from_dict, Track.to_dict, dict_get.
    simplify_map_eq. simpl.
    rewrite !as_opt_str_of, !as_opt_int_of. reflexivity.
Qed.
End Serialization.

(** ** [shuffle] *)

Section Shuffle.
Import MusicQueue.
Implicit Types (q : MusicQueue.t) (l : list Track.t).

Lemma bound_same_length {A B : Type} (l1 : list A) (l2 : list B) k :
  length l1 = length l2 → Py.bound l1 k = Py.bound l2 k.
Proof. intros Hl. unfold Py.bound, Py.len. by rewrite Hl. Qed.

(** A rearrangement of a list of fewer than two elements is that
    list. *)
Lemma short_permutation l l' :
  l' ≡ₚ l → (length l < 2)%nat → l' = l.
Proof.
  intros Hp Hl. destruct l as [|x [|y l]]; simpl in Hl; [| |lia].
  - by apply Permutation_nil_r.
  - by apply Permutation_singleton_r.
Qed.

(** Cutting the shuffled list where the original was cut gives back
    the kept prefix and the rearranged suffix. *)
Lemma shuffled_slices l l' k :
  l' ≡ₚ Py.slice_from l k →
  Py.slice_to (Py.slice_to l k ++ l') k = Py.slice_to l k
  ∧ Py.slice_from (Py.slice_to l k ++ l') k = l'.
Proof.
  intros Hp. unfold Py.slice_to, Py.slice_from in *.
  assert (Hlen : length (take (Py.bound l k) l ++ l') = length l).
  { rewrite length_app, (Permutation_length Hp), <- length_app.
    by rewrite take_drop. }
  rewrite (bound_same_length _ l k Hlen).
  pose proof (bound_le l k) as Hb.
  assert (Ht : length (take (Py.bound l k) l) = Py.bound l k).
  { rewrite length_take. lia. }
  split.
  - rewrite take_app_le by lia. rewrite take_ge by lia. done.
  - rewrite drop_app_ge by lia. rewrite Ht, Nat.sub_diag. done.
Qed.

(** C8.  Whatever rearrangement [random.shuffle] picks, [shuffle]
    returns without an exception, leaves the slice [tracks[:i+1]] up
    to and including the cursor [i] as it was, so that every position
    from 0 to [i] holds the track it held, leaves a slice
    [tracks[i+1:]] that is a permutation of the one before, and
    changes neither the cursor, the loop mode, the capacity nor the
    history; a queue with fewer than two upcoming tracks is left
    exactly as it was. *)
Theorem shuffle_frame (rnd : list Track.t → list Track.t) q :
  (∀ l, rnd l ≡ₚ l) →
  ∃ q', shuffle rnd q = Return tt q'
        ∧ Py.slice_to (_tracks q') (_current_index q + 1)
          = Py.slice_to (_tracks q) (_current_index q + 1)
        ∧ Py.slice_from (_tracks q') (_current_index q + 1)
          ≡ₚ Py.slice_from (_tracks q) (_current_index q + 1)
        ∧ upcoming q' ≡ₚ upcoming q
        ∧ size q' = size q
        ∧ _current_index q' = _current_index q
        ∧ _loop_mode q' = _loop_mode q
        ∧ _max_size q' = _max_size q
        ∧ _history q' = _history q
        ∧ (∀ i : nat, Z.of_nat i <= _current_index q →
             _tracks q' !! i = _tracks q !! i)
        ∧ ((length (upcoming q) < 2)%nat → q' = q).
Proof.
  intros Hrnd. unfold shuffle, upcoming.
  destruct (Z.ltb_spec (_current_index q + 1) (size q)) as [Hlt|Hge].
  - set (k := _current_index q + 1) in *.
    destruct (shuffled_slices (_tracks q) (rnd (Py.slice_from (_tracks q) k)) k)
      as [Hto Hfrom]; [apply Hrnd|].
    assert (Hsize : size (set_tracks
              (Py.slice_to (_tracks q) k ++ rnd (Py.slice_from (_tracks q) k)) q)
            = size q).
    { unfold size. simpl. rewrite len_app. unfold Py.len.
      rewrite (Permutation_length (Hrnd _)), <- Nat2Z.inj_add, <- length_app.
      by rewrite slice_to_from. }
    eexists. split; [reflexivity|]. simpl. fold k.
    rewrite Hsize.
    destruct (Z.ltb_spec k (size q)) as [_|?]; [|lia].
    rewrite Hto, Hfrom.
    repeat split; try done.
    + intros i Hi. unfold Py.slice_to.
      assert (Hb : Py.bound (_tracks q) k = Z.to_nat k).
      { apply bound_in_range. unfold size in Hlt. lia. }
      pose proof (bound_le (_tracks q) k).
      rewrite lookup_app_l by (rewrite length_take; lia).
      apply lookup_take_lt. lia.
    + intros Hshort.
      rewrite (short_permutation _ _ (Hrnd _) Hshort), slice_to_from.
      by destruct q.
  - exists q. repeat split; try reflexivity.
    by destruct (Z.ltb_spec (_current_index q + 1) (size q)); [lia|].
Qed.

Lemma shuffle_frame_witness :
  (∀ l : list Track.t, reverse l ≡ₚ l)
  ∧ shuffle reverse (queue_of 500 [track_A; track_B; track_C; track_D] 1 LoopMode.OFF)
    = Return tt (queue_of 500 [track_A; track_B; track_D; track_C] 1 LoopMode.OFF).
Proof.
  split; [apply reverse_Permutation|].
  destruct (shuffle_frame reverse
              (queue_of 500 [track_A; track_B; track_C; track_D] 1 LoopMode.OFF)
              reverse_Permutation) as (q' & Hs & _).
  rewrite Hs. f_equal. injection Hs as <-. reflexivity.
Defined.
End Shuffle.

(** ** [seek] outside the track *)

Section Seek.
Context {float VoiceClient AudioSource : Type}.
Implicit Types (w : @MusicPlayer.world float VoiceClient AudioSource)
               (p : @MusicPlayer.t float VoiceClient).

(** C10.  When the player has a current track, [seek] to a negative
    position, or to a position at or past the duration of a track
    whose duration is positive, returns [False] and leaves the whole
    player, its recorded position and its queue included, as it was,
    whatever the collaborators would have answered. *)
Theorem seek_rejects_out_of_range w seconds p track :
  MusicPlayer.current_track p = Some track →
  seconds < 0 ∨ (0 < Track.duration track ∧ Track.duration track <= seconds) →
  MusicPlayer.seek w seconds p = (false, p).
Proof.
  unfold MusicPlayer.current_track, MusicPlayer.seek.
  intros -> Hrange.
  destruct (MusicPlayer._voice_client p) as [vc|]; [|done].
  destruct (Z.ltb_spec seconds 0) as [|Hs]; [done|]. simpl.
  destruct Hrange as [|[Hd Hle]]; [lia|].
  destruct (Z.ltb_spec 0 (Track.duration track)); [|lia].
  destruct (Z.leb_spec (Track.duration track) seconds); [done|lia].
Qed.
End Seek.

Lemma seek_rejects_out_of_range_witness :
  (MusicPlayer.current_track sample_player = Some track_A
   ∧ (-5 < 0 ∨ (0 < Track.duration track_A ∧ Track.duration track_A <= -5))
   ∧ MusicPlayer.seek sample_world (-5) sample_player = (false, sample_player))
  ∧ ((180 < 0 ∨ (0 < Track.duration track_A ∧ Track.duration track_A <= 180))
     ∧ MusicPlayer.seek sample_world 180 sample_player = (false, sample_player))
  ∧ MusicPlayer.seek sample_world 179 sample_player
    = (true, MusicPlayer.set_current_position 179 sample_player).
Proof.
  assert (Hc : MusicPlayer.current_track sample_player = Some track_A)
    by reflexivity.
  assert (Hneg : -5 < 0 ∨ (0 < Track.duration track_A ∧ Track.duration track_A <= -5))
    by (left; lia).
  assert (Hend : 180 < 0 ∨ (0 < Track.duration track_A ∧ Track.duration track_A <= 180))
    by (right; simpl; lia).
  split; [|split].
  - split; [exact Hc|]. split; [exact Hneg|].
    exact (seek_rejects_out_of_range sample_world (-5) sample_player track_A Hc Hneg).
  - split; [exact Hend|].
    exact (seek_rejects_out_of_range sample_world 180 sample_player track_A Hc Hend).
  - reflexivity.
Defined.

(** ** [next] under [LoopMode.ALL] *)

Section LoopAll.
Import MusicQueue.
Implicit Types (q : MusicQueue.t).

Lemma pop_first_nonempty (h : list Track.t) :
  0 < Py.len h → ∃ x h', Py.pop h 0 = Some (x, h').
Proof.
  intros Hh. destruct (pop_in_range h 0) as (x & _ & Hp); [lia|]. eauto.
Qed.

Lemma current_set_history h q : current (set_history h q) = current q.
Proof. reflexivity. Qed.

(** One [next] on a looping queue with a valid cursor: the cursor
    moves to its successor modulo the size and the track there is
    returned; only the cursor and the history change. *)
Lemma next_all_step q :
  _loop_mode q = LoopMode.ALL →
  0 <= _current_index q < size q →
  ∃ q', next q = Return (current q') q'
        ∧ _tracks q' = _tracks q
        ∧ _loop_mode q' = LoopMode.ALL
        ∧ _max_size q' = _max_size q
        ∧ _current_index q' = (_current_index q + 1) mod size q.
Proof.
  intros Hmode Hc. unfold next, is_empty.
  destruct (Z.eqb_spec (size q) 0); [lia|].
  assert (Hrec : ∃ h, record_current q = Return tt (set_history h q)).
  { unfold record_current. destruct (current q) as [c|]; simpl.
    - destruct (Z.ltb_spec 50 (Py.len (_history q ++ [c]))) as [Hfull|_].
      + destruct (pop_first_nonempty (_history q ++ [c])) as (x & h' & ->);
          [lia|]. eauto.
      + eauto.
    - exists (_history q). by destruct q. }
  destruct Hrec as (h & ->). simpl. rewrite Hmode.
  change (size (set_history h q)) with (size q).
  destruct (Z.ltb_spec (_current_index q + 1) (size q)) as [Hlt|Hge].
  - eexists. split; [reflexivity|]. simpl.
    repeat split; try done. by rewrite Z.mod_small by lia.
  - eexists. split; [reflexivity|]. simpl.
    repeat split; try done.
    replace (_current_index q + 1) with (size q) by lia.
    by rewrite Z.mod_same by lia.
Qed.

Lemma next_n_all q (k : nat) :
  _loop_mode q = LoopMode.ALL →
  _current_index q = 0 →
  0 < size q →
  ∃ r q', next_n k q = Return r q'
          ∧ _tracks q' = _tracks q
          ∧ _loop_mode q' = LoopMode.ALL
          ∧ _max_size q' = _max_size q
          ∧ _current_index q' = Z.of_nat k mod size q
          ∧ ((0 < k)%nat → r = current q').
Proof.
  intros Hmode Hzero Hsize. induction k as [|k IH]; simpl.
  - exists None, q. repeat split; try done; lia.
  - destruct IH as (r & q1 & -> & Ht & Hm & Hx & Hc & _).
    assert (Hs1 : size q1 = size q) by (unfold size; by rewrite Ht).
    destruct (next_all_step q1 Hm) as (q2 & -> & Ht2 & Hm2 & Hx2 & Hc2).
    { rewrite Hc, Hs1. apply Z.mod_pos_bound. lia. }
    exists (current q2), q2. repeat split; try congruence.
    rewrite Hc2, Hc, Hs1, Zplus_mod_idemp_l. f_equal. lia.
Qed.

(** C9.  On a queue of [N >= 1] tracks in loop mode ALL with the
    cursor at 0, any number [k] of successive [next] calls returns
    without an exception, leaves the tracks as they were and the
    cursor at [k mod N], the last call returning the track there; so
    the [N]-th call returns the original first track and leaves the
    cursor at 0, and no earlier call brings the cursor back to 0. *)
Theorem next_loop_all_period q :
  1 <= size q →
  _loop_mode q = LoopMode.ALL →
  _current_index q = 0 →
  (∀ k : nat, ∃ r q',
      next_n k q = Return r q'
      ∧ _tracks q' = _tracks q
      ∧ _current_index q' = Z.of_nat k mod size q
      ∧ ((0 < k)%nat → r = _tracks q !! Z.to_nat (Z.of_nat k mod size q)))
  ∧ (∃ q', next_n (Z.to_nat (size q)) q = Return (_tracks q !! 0%nat) q'
           ∧ _tracks q' = _tracks q
           ∧ _current_index q' = 0
           ∧ current q' = current q)
  ∧ (∀ k : nat, (0 < k)%nat → Z.of_nat k < size q →
       _current_index (state (next_n k q)) ≠ 0).
Proof.
  intros Hsize Hmode Hzero.
  assert (Hk : ∀ k : nat, ∃ r q',
      next_n k q = Return r q'
      ∧ _tracks q' = _tracks q
      ∧ _current_index q' = Z.of_nat k mod size q
      ∧ ((0 < k)%nat → r = _tracks q !! Z.to_nat (Z.of_nat k mod size q))).
  { intros k.
    destruct (next_n_all q k Hmode Hzero) as (r & q' & Hn & Ht & _ & _ & Hc & Hr);
      [lia|].
    exists r, q'. repeat split; try done.
    intros Hpos. rewrite (Hr Hpos), current_in_range.
    - by rewrite Ht, Hc.
    - unfold size. rewrite Ht, Hc. apply Z.mod_pos_bound. fold (size q). lia. }
  split; [exact Hk|]. split.
  - destruct (Hk (Z.to_nat (size q))) as (r & q' & Hn & Ht & Hc & Hr).
    rewrite Z2Nat.id, Z.mod_same in * by lia.
    exists q'. rewrite Hn, Hr by lia.
    repeat split; try done.
    unfold current, size. by rewrite Ht, Hc, Hzero.
  - intros k Hpos Hlt.
    destruct (Hk k) as (r & q' & -> & _ & Hc & _). simpl.
    rewrite Hc, Z.mod_small by lia. lia.
Qed.

Lemma next_loop_all_period_witness :
  1 <= size (queue_of 500 [track_A; track_B; track_C] 0 LoopMode.ALL)
  ∧ next_n 3 (queue_of 500 [track_A; track_B; track_C] 0 LoopMode.ALL)
    = Return (Some track_A)
        (set_history [track_A; track_B; track_C]
           (queue_of 500 [track_A; track_B; track_C] 0 LoopMode.ALL))
  ∧ ∃ q', next_n 3 (queue_of 500 [track_A; track_B; track_C] 0 LoopMode.ALL)
          = Return (Some track_A) q'
          ∧ _current_index q' = 0.
Proof.
  assert (Hs : 1 <= size (queue_of 500 [track_A; track_B; track_C] 0 LoopMode.ALL)).
  { unfold size, Py.len. simpl. lia. }
  split; [exact Hs|]. split; [reflexivity|].
  destruct (next_loop_all_period _ Hs eq_refl eq_refl)
    as (_ & (q' & Hn & _ & Hc & _) & _).
  exists q'. split; [exact Hn|exact Hc].
Defined.
End LoopAll.

(** ** [move] *)

Section MoveLists.
Context {A : Type}.
Implicit Types (l d : list A) (x : A) (f t c j : nat).

(** Lookup in a list into which [x] was put at position [t]. *)
Lemma inserted_lookup d t x j :
  (t <= length d)%nat →
  (take t d ++ x :: drop t d) !! j
  = if decide (j < t)%nat then d !! j
    else if decide (j = t) then Some x
    else d !! (j - 1)%nat.
Proof.
  intros Ht.
  assert (Hlen : length (take t d) = t) by (rewrite length_take; lia).
  destruct (decide (j < t)%nat) as [Hlt|Hge].
  - rewrite lookup_app_l by lia. by apply lookup_take_lt.
  - destruct (decide (j = t)) as [->|Hne].
    + by apply list_lookup_middle.
    + rewrite lookup_app_r by lia. rewrite Hlen.
      destruct (j - t)%nat as [|n] eqn:Hjt; [lia|].
      rewrite lookup_cons, lookup_drop. f_equal. lia.
Qed.

(** Where the element at position [c] of [l] is found after the
    element at [f] was taken out and put back at [t]. *)
Lemma moved_lookup l f t c x :
  l !! f = Some x → (t < length l)%nat → (c < length l)%nat →
  (take t (delete f l) ++ x :: drop t (delete f l))
    !! (if decide (c = f) then t
        else if decide (f < c ≤ t)%nat then (c - 1)%nat
        else if decide (t ≤ c < f)%nat then (c + 1)%nat
        else c)
  = l !! c.
Proof.
  intros Hx Ht Hc.
  assert (Hf : (f < length l)%nat) by (by eapply lookup_lt_Some).
  assert (Hd : length (delete f l) = (length l - 1)%nat).
  { apply length_delete. eauto. }
  rewrite inserted_lookup by lia.
  destruct (decide (c = f)) as [->|Hcf].
  { rewrite decide_False by lia. by rewrite decide_True. }
  destruct (decide (f < c ≤ t)%nat) as [Hup|Hnup].
  { rewrite decide_True by lia.
    rewrite list_lookup_delete_ge by lia. f_equal. lia. }
  destruct (decide (t ≤ c < f)%nat) as [Hdown|Hndown].
  { rewrite decide_False by lia. rewrite decide_False by lia.
    rewrite list_lookup_delete_lt by lia. f_equal. lia. }
  destruct (decide (c < t)%nat) as [Hlt|Hge].
  - rewrite list_lookup_delete_lt by lia. done.
  - rewrite decide_False by lia.
    rewrite list_lookup_delete_ge by lia. f_equal. lia.
Qed.
End MoveLists.

Section Move.
Import MusicQueue.
Implicit Types (q : MusicQueue.t).

(** C7.  For valid indices, [move] returns [True] without an
    exception; the track that was at [from_index] is at [to_index]
    and the other tracks keep their order; the cursor becomes
    [to_index] when the moved track was current, moves down by one
    when the track crossed it from below and up by one when the
    track crossed it from above; and the current track after the
    move is the current track before it. *)
Theorem move_valid_indices q from_index to_index :
  0 <= from_index < size q →
  0 <= to_index < size q →
  ∃ q', move from_index to_index q = Return true q'
        ∧ Py.getitem (_tracks q') to_index = Py.getitem (_tracks q) from_index
        ∧ delete (Z.to_nat to_index) (_tracks q')
          = delete (Z.to_nat from_index) (_tracks q)
        ∧ size q' = size q
        ∧ current q' = current q
        ∧ (from_index = _current_index q → _current_index q' = to_index)
        ∧ (from_index < _current_index q <= to_index →
           _current_index q' = _current_index q - 1)
        ∧ (to_index <= _current_index q < from_index →
           _current_index q' = _current_index q + 1)
        ∧ _loop_mode q' = _loop_mode q
        ∧ _max_size q' = _max_size q
        ∧ _history q' = _history q.
Proof.
  intros Hf Ht. unfold move.
  destruct (Z.leb_spec 0 from_index); [|lia].
  destruct (Z.ltb_spec from_index (size q)); [|lia].
  destruct (Z.leb_spec 0 to_index); [|lia].
  destruct (Z.ltb_spec to_index (size q)); [|lia]. simpl.
  destruct (pop_in_range (_tracks q) from_index) as (x & Hx & ->); [done|].
  set (l := _tracks q) in *.
  set (f := Z.to_nat from_index) in *.
  set (t := Z.to_nat to_index).
  assert (Hsize : size q = Z.of_nat (length l)) by reflexivity.
  assert (Hlf : (f < length l)%nat) by (by eapply lookup_lt_Some).
  assert (Hlt : (t < length l)%nat) by lia.
  assert (Hd : length (delete f l) = (length l - 1)%nat).
  { apply length_delete. eauto. }
  assert (Hins : Py.insert (delete f l) to_index x
                 = take t (delete f l) ++ x :: drop t (delete f l)).
  { unfold Py.insert. rewrite bound_in_range; [done|].
    unfold Py.len. lia. }
  rewrite Hins. set (m := take t (delete f l) ++ x :: drop t (delete f l)).
  assert (Hlm : length m = length l).
  { unfold m. rewrite length_app, length_take. simpl. rewrite length_drop. lia. }
  set (q1 := set_tracks m q).
  assert (Hs1 : ∀ i, size (set_current_index i q1) = size q).
  { intros i. unfold size, Py.len. simpl. by rewrite Hlm. }
  assert (Hsq1 : size q1 = size q) by (apply (Hs1 0)).
  change (_current_index q1) with (_current_index q).
  assert (Hcur : ∀ i c : nat,
             (c < length l)%nat →
             i = (if decide (c = f) then t
                  else if decide (f < c ≤ t)%nat then (c - 1)%nat
                  else if decide (t ≤ c < f)%nat then (c + 1)%nat
                  else c) →
             m !! i = l !! c).
  { intros i c Hc ->. by apply moved_lookup. }
  assert (Hlook : ∀ i (c : Z),
             0 <= c < size q → 0 <= i < size q →
             Z.to_nat i = (if decide (Z.to_nat c = f) then t
                  else if decide (f < Z.to_nat c ≤ t)%nat then (Z.to_nat c - 1)%nat
                  else if decide (t ≤ Z.to_nat c < f)%nat then (Z.to_nat c + 1)%nat
                  else Z.to_nat c) →
             _current_index q = c →
             current (set_current_index i q1) = current q).
  { intros i c Hc Hi Heq Hci.
    rewrite !current_in_range; simpl; rewrite ?Hs1; try lia.
    rewrite Hci. apply Hcur; [lia|done]. }
  assert (Hget : Py.getitem m to_index = Py.getitem l from_index).
  { rewrite !getitem_in_range by (unfold Py.len; rewrite ?Hlm; lia).
    fold t f. rewrite Hx. unfold m. rewrite inserted_lookup by lia.
    rewrite decide_False by lia. by rewrite decide_True. }
  assert (Hdel : delete t m = delete f l).
  { unfold m. rewrite <- (take_drop t (delete f l)) at 3.
    rewrite <- (delete_middle (take t (delete f l)) (drop t (delete f l)) x) at 1.
    f_equal. rewrite length_take. lia. }
  destruct (Z.eqb_spec from_index (_current_index q)) as [Heq|Hne].
  { eexists. split; [reflexivity|]. simpl.
    repeat split; try done; try lia.
    apply (Hlook to_index from_index); try done.
    rewrite decide_True by done. done. }
  destruct (Z.ltb_spec from_index (_current_index q)) as [Hbelow|Hnb];
    [destruct (Z.leb_spec (_current_index q) to_index) as [Hup|Hnup]|]; simpl.
  { eexists. split; [reflexivity|]. simpl.
    repeat split; try done; try lia.
    apply (Hlook _ (_current_index q)); try done; try lia.
    rewrite decide_False by lia. rewrite decide_True by lia. lia. }
  - destruct (Z.leb_spec to_index (_current_index q)); [|lia]. simpl.
    destruct (Z.ltb_spec (_current_index q) from_index); [lia|].
    eexists. split; [reflexivity|]. simpl.
    repeat split; try done; try lia.
    destruct (decide (_current_index q < size q)) as [Hin|Hout].
    + apply (Hlook _ (_current_index q)); try done; try lia.
      rewrite !decide_False by lia. done.
    + unfold current. change (_current_index q1) with (_current_index q).
      rewrite Hsq1.
      destruct (Z.ltb_spec (_current_index q) (size q)); [lia|].
      by rewrite !andb_false_r.
  - destruct (Z.leb_spec to_index (_current_index q)) as [Hle|Hgt];
      [destruct (Z.ltb_spec (_current_index q) from_index) as [Hdown|Hnd]|];
      simpl.
    + eexists. split; [reflexivity|]. simpl.
      repeat split; try done; try lia.
      apply (Hlook _ (_current_index q)); try done; try lia.
      rewrite !decide_False by lia. rewrite decide_True by lia. lia.
    + lia.
    + eexists. split; [reflexivity|]. simpl.
      repeat split; try done; try lia.
      destruct (decide (0 <= _current_index q)) as [Hin|Hout].
      * apply (Hlook _ (_current_index q)); try done; try lia.
        rewrite !decide_False by lia. done.
      * unfold current. change (_current_index q1) with (_current_index q).
        destruct (Z.leb_spec 0 (_current_index q)); [lia|]. done.
Qed.

Lemma move_valid_indices_witness :
  0 <= 0 < size (queue_of 500 [track_A; track_B; track_C; track_D] 2 LoopMode.OFF)
  ∧ 0 <= 3 < size (queue_of 500 [track_A; track_B; track_C; track_D] 2 LoopMode.OFF)
  ∧ ∃ q', move 0 3 (queue_of 500 [track_A; track_B; track_C; track_D] 2 LoopMode.OFF)
            = Return true q'
          ∧ _tracks q' = [track_B; track_C; track_D; track_A]
          ∧ _current_index q' = 1
          ∧ current q' = Some track_C.
Proof.
  assert (Hf : 0 <= 0 < size (queue_of 500 [track_A; track_B; track_C; track_D]
                                 2 LoopMode.OFF)).
  { unfold size, Py.len. simpl. lia. }
  assert (Ht : 0 <= 3 < size (queue_of 500 [track_A; track_B; track_C; track_D]
                                 2 LoopMode.OFF)).
  { unfold size, Py.len. simpl. lia. }
  split; [exact Hf|]. split; [exact Ht|].
  destruct (move_valid_indices _ 0 3 Hf Ht)
    as (q' & Hm & _ & _ & _ & Hcur & _ & Hup & _).
  exists q'. split; [exact Hm|].
  split; [by injection Hm as <-|].
  split; [apply Hup; simpl; lia|exact Hcur].
Defined.
End Move.


(** * Further properties of the queue *)

(** ** What every method keeps *)

Section AllMethods.
Import MusicQueue.
Implicit Types (q : MusicQueue.t) (track : Track.t).
Variable max_size : Z.

Lemma bound_nonneg_le {A : Type} (l : list A) k :
  0 <= k → Z.of_nat (Py.bound l k) <= k.
Proof.
  intros Hk. unfold Py.bound. destruct (Z.ltb_spec k 0); [lia|].
  pose proof (len_nonneg l). lia.
Qed.

Lemma sound_init : sound max_size (__init__ max_size).
Proof.
  unfold sound, cursor_ok, history_ok, capacity_ok, size, Py.len. simpl. lia.
Qed.

Lemma add_sound track q : sound max_size q → ∃ b q', add track q = Return b q' ∧ sound max_size q'.
Proof.
  intros Hq. pose proof Hq as (Hc & Hh & Hm). unfold add.
  destruct (Z.leb_spec (_max_size q) (size q)); [by eauto|].
  eexists _, _. split; [done|].
  unfold sound, cursor_ok, history_ok, capacity_ok, size in *. simpl.
  rewrite len_app. pose proof (len_nonneg (_tracks q)).
  change (Py.len [track]) with 1. lia.
Qed.

Lemma add_many_sound batch q :
  sound max_size q → ∃ n q', add_many batch q = Return n q' ∧ sound max_size q'.
Proof.
  intros Hq. pose proof Hq as (Hc & Hh & Hm). unfold add_many.
  eexists _, _. split; [done|].
  unfold sound, cursor_ok, history_ok, capacity_ok, size in *. simpl.
  rewrite len_app, len_slice_to.
  pose proof (len_nonneg (_tracks q)).
  destruct Hm as [Hcap Hm].
  split; [lia|]. split; [done|]. split; [done|]. intros Hmax.
  pose proof (bound_nonneg_le batch (_max_size q - Py.len (_tracks q))). lia.
Qed.

Lemma insert_sound index track q :
  sound max_size q → ∃ b q', insert index track q = Return b q' ∧ sound max_size q'.
Proof.
  intros Hq. pose proof Hq as (Hc & Hh & Hm). unfold insert.
  destruct (Z.leb_spec (_max_size q) (size q)); [by eauto|].
  eexists _, _. split; [done|].
  unfold sound, cursor_ok, history_ok, capacity_ok, size in *. simpl.
  rewrite len_insert. pose proof (len_nonneg (_tracks q)). lia.
Qed.

Lemma remove_sound index q :
  sound max_size q → ∃ r q', remove index q = Return r q' ∧ sound max_size q'.
Proof.
  intros Hq. pose proof Hq as (Hc & Hh & Hm). unfold remove.
  destruct (Z.leb_spec 0 index), (Z.ltb_spec index (size q)); simpl;
    try by eauto.
  destruct (pop_in_range (_tracks q) index) as (x & Hx & ->); [done|].
  eexists _, _. split; [done|].
  assert (Hlen : Py.len (delete (Z.to_nat index) (_tracks q)) = size q - 1).
  { apply len_delete. unfold size, Py.len in *. lia. }
  unfold sound, cursor_ok, history_ok, capacity_ok, size in *. simpl.
  destruct (Z.ltb_spec index (_current_index q)); simpl; [rewrite Hlen; lia|].
  destruct (Z.eqb_spec index (_current_index q)); simpl; [|rewrite Hlen; lia].
  rewrite Hlen.
  destruct (Z.leb_spec (Py.len (_tracks q) - 1) (_current_index q));
    simpl; rewrite ?Hlen; lia.
Qed.

Lemma clear_sound q : sound max_size q → ∃ q', clear q = Return tt q' ∧ sound max_size q'.
Proof.
  intros Hq. pose proof Hq as (Hc & Hh & Hm). eexists. split; [done|].
  unfold sound, cursor_ok, history_ok, capacity_ok, size, Py.len in *. simpl. lia.
Qed.

Lemma clear_upcoming_sound q :
  sound max_size q → ∃ n q', clear_upcoming q = Return n q' ∧ sound max_size q'.
Proof.
  intros Hq. pose proof Hq as (Hc & Hh & Hm). unfold clear_upcoming.
  destruct (Z.ltb_spec (_current_index q + 1) (size q)); [|by eauto].
  eexists _, _. split; [done|].
  unfold sound, cursor_ok, history_ok, capacity_ok, size in *. simpl.
  rewrite len_slice_to, bound_in_range by lia. lia.
Qed.

(** The history step of [next] never fails and keeps the history
    within its bound. *)
Lemma record_current_history q :
  ∃ h, record_current q = Return tt (set_history h q)
       ∧ (history_ok q → Py.len h <= 50).
Proof.
  unfold record_current, history_ok. destruct (current q) as [c|].
  - cbv zeta.
    destruct (Z.ltb_spec 50 (Py.len (_history q ++ [c]))) as [Hfull|Hroom].
    + destruct (pop_in_range (_history q ++ [c]) 0) as (x & _ & ->); [lia|].
      eexists. split; [done|]. intros Hh.
      rewrite len_delete by (rewrite length_app; simpl; lia).
      rewrite len_app. change (Py.len [c]) with 1. lia.
    + eauto.
  - exists (_history q). split; [by destruct q|done].
Qed.

Lemma next_sound q : sound max_size q → ∃ r q', next q = Return r q' ∧ sound max_size q'.
Proof.
  intros Hq. pose proof Hq as (Hc & Hh & Hm). unfold next, is_empty.
  destruct (Z.eqb_spec (size q) 0); [by eauto|].
  destruct (record_current_history q) as (h & -> & Hlen).
  specialize (Hlen Hh).
  assert (Hq1 : sound max_size (set_history h q)) by done.
  change (size (set_history h q)) with (size q).
  change (_current_index (set_history h q)) with (_current_index q).
  change (_loop_mode (set_history h q)) with (_loop_mode q).
  assert (Hstep : ∀ i, 0 <= i < size q →
            sound max_size (set_current_index i (set_history h q))).
  { intros i Hi. unfold sound, cursor_ok, history_ok, capacity_ok, size in *.
    simpl. lia. }
  pose proof (len_nonneg (_tracks q)) as Hnn. fold (size q) in Hnn.
  unfold cursor_ok in Hc.
  destruct (_loop_mode q);
    destruct (Z.ltb_spec (_current_index q + 1) (size q));
    eexists _, _; (split; [reflexivity|]); try done; apply Hstep; lia.
Qed.

Lemma previous_sound q : sound max_size q → ∃ r q', previous q = Return r q' ∧ sound max_size q'.
Proof.
  intros Hq. pose proof Hq as (Hc & Hh & Hm). unfold previous.
  assert (Hstep : ∀ i, 0 <= i < size q → sound max_size (set_current_index i q)).
  { intros i Hi. unfold sound, cursor_ok, history_ok, capacity_ok, size in *.
    simpl. lia. }
  unfold cursor_ok in Hc.
  destruct (Z.ltb_spec 0 (_current_index q)).
  { eexists _, _. split; [done|]. apply Hstep. lia. }
  destruct (bool_decide (_loop_mode q = LoopMode.ALL)); simpl; [|by eauto].
  destruct (Z.ltb_spec 0 (size q)); [|by eauto].
  eexists _, _. split; [done|]. apply Hstep. lia.
Qed.

Lemma jump_sound index q : sound max_size q → ∃ r q', jump index q = Return r q' ∧ sound max_size q'.
Proof.
  intros Hq. pose proof Hq as (Hc & Hh & Hm). unfold jump.
  destruct (Z.leb_spec 0 index), (Z.ltb_spec index (size q)); simpl;
    try by eauto.
  eexists _, _. split; [done|].
  unfold sound, cursor_ok, history_ok, capacity_ok, size in *. simpl. lia.
Qed.

Lemma shuffle_sound rnd q :
  (∀ l, rnd l ≡ₚ l) → sound max_size q → ∃ q', shuffle rnd q = Return tt q' ∧ sound max_size q'.
Proof.
  intros Hrnd Hq. pose proof Hq as (Hc & Hh & Hm). unfold shuffle.
  destruct (Z.ltb_spec (_current_index q + 1) (size q)); [|by eauto].
  eexists. split; [done|].
  assert (Hsize : Py.len (Py.slice_to (_tracks q) (_current_index q + 1)
                    ++ rnd (Py.slice_from (_tracks q) (_current_index q + 1)))
                  = Py.len (_tracks q)).
  { rewrite len_app. unfold Py.len.
    rewrite (Permutation_length (Hrnd _)), <- Nat2Z.inj_add, <- length_app.
    by rewrite slice_to_from. }
  unfold sound, cursor_ok, history_ok, capacity_ok, size in *. simpl.
  rewrite Hsize. lia.
Qed.

Lemma move_sound from_index to_index q :
  sound max_size q → ∃ b q', move from_index to_index q = Return b q' ∧ sound max_size q'.
Proof.
  intros Hq. pose proof Hq as (Hc & Hh & Hm). unfold move.
  destruct (Z.leb_spec 0 from_index), (Z.ltb_spec from_index (size q));
    simpl; try by eauto.
  destruct (Z.leb_spec 0 to_index), (Z.ltb_spec to_index (size q));
    simpl; try by eauto.
  destruct (pop_in_range (_tracks q) from_index) as (x & Hx & ->); [done|].
  eexists _, _. split; [done|].
  assert (Hlen : Py.len (Py.insert (delete (Z.to_nat from_index) (_tracks q))
                           to_index x) = size q).
  { rewrite len_insert, len_delete; unfold size, Py.len in *; lia. }
  unfold sound, cursor_ok, history_ok, capacity_ok, size in *. simpl.
  destruct (Z.eqb_spec from_index (_current_index q)); simpl;
    [rewrite Hlen; lia|].
  destruct (Z.ltb_spec from_index (_current_index q)),
           (Z.leb_spec (_current_index q) to_index); simpl;
    try (rewrite Hlen; lia);
    destruct (Z.leb_spec to_index (_current_index q)),
             (Z.ltb_spec (_current_index q) from_index); simpl;
    rewrite Hlen; lia.
Qed.

Lemma invoke_sound m q :
  permuting m → sound max_size q → ∃ q', invoke m q = Return tt q' ∧ sound max_size q'.
Proof.
  intros Hp Hq. destruct m; unfold invoke.
  - destruct (add_sound track q Hq) as (r & q' & -> & ?). simpl. eauto.
  - destruct (add_many_sound batch q Hq) as (r & q' & -> & ?). simpl. eauto.
  - destruct (insert_sound index track q Hq) as (r & q' & -> & ?). simpl. eauto.
  - destruct (remove_sound index q Hq) as (r & q' & -> & ?). simpl. eauto.
  - by apply clear_sound.
  - destruct (clear_upcoming_sound q Hq) as (r & q' & -> & ?). simpl. eauto.
  - destruct (next_sound q Hq) as (r & q' & -> & ?). simpl. eauto.
  - destruct (previous_sound q Hq) as (r & q' & -> & ?). simpl. eauto.
  - destruct (jump_sound index q Hq) as (r & q' & -> & ?). simpl. eauto.
  - by apply shuffle_sound.
  - destruct (move_sound from_index to_index q Hq) as (r & q' & -> & ?).
    simpl. eauto.
  - eexists. split; [done|]. done.
Qed.

Lemma invoke_all_sound ms q :
  Forall permuting ms → sound max_size q →
  ∃ q', invoke_all ms q = Return tt q' ∧ sound max_size q'.
Proof.
  intros Hp. revert q. induction Hp as [|m ms Hm _ IH]; intros q Hq; simpl.
  - eauto.
  - destruct (invoke_sound m q Hm Hq) as (q1 & -> & Hq1). by apply IH.
Qed.

End AllMethods.

Section Invariants.
Import MusicQueue.

Lemma sample_calls_permuting : Forall permuting sample_calls.
Proof.
  unfold sample_calls. repeat constructor. intros l. apply reverse_Permutation.
Qed.

(** X1.  Starting from the empty queue, every sequence of calls of
    [add], [add_many], [insert], [remove], [clear], [clear_upcoming],
    [next], [previous], [jump], [shuffle], [move] and the [loop_mode]
    setter runs to its end without an exception and leaves a valid
    cursor: [0 <= current_index < size] when the queue has tracks,
    and [current_index = 0] with no current track when it has none. *)
Theorem every_method_keeps_cursor (max_size : Z) (ms : list method) :
  Forall permuting ms →
  ∃ q, invoke_all ms (__init__ max_size) = Return tt q
       ∧ (0 < size q → 0 <= _current_index q < size q)
       ∧ (size q = 0 → _current_index q = 0 ∧ current q = None).
Proof.
  intros Hp.
  destruct (invoke_all_sound max_size ms (__init__ max_size) Hp
              (sound_init max_size))
    as (q & Hrun & Hc & _ & _).
  exists q. split; [done|]. unfold cursor_ok in Hc. split; [lia|].
  intros Hs. split; [lia|]. by apply current_empty.
Qed.

Lemma every_method_keeps_cursor_witness :
  Forall permuting sample_calls
  ∧ ∃ q, invoke_all sample_calls (__init__ 500) = Return tt q
         ∧ (0 < size q → 0 <= _current_index q < size q)
         ∧ (size q = 0 → _current_index q = 0 ∧ current q = None).
Proof.
  split; [exact sample_calls_permuting|].
  exact (every_method_keeps_cursor 500 sample_calls sample_calls_permuting).
Defined.

(** X2.  A queue made with a capacity that is not negative never
    holds more than [max_size] tracks, whatever calls of the methods
    other than [restore_state] are made on it, and its capacity stays
    the one it was made with. *)
Theorem every_method_keeps_capacity (max_size : Z) (ms : list method) :
  0 <= max_size →
  Forall permuting ms →
  ∃ q, invoke_all ms (__init__ max_size) = Return tt q
       ∧ _max_size q = max_size
       ∧ size q <= max_size.
Proof.
  intros Hmax Hp.
  destruct (invoke_all_sound max_size ms (__init__ max_size) Hp
              (sound_init max_size))
    as (q & Hrun & _ & _ & Hm & Hcap).
  exists q. split; [done|]. split; [done|]. by apply Hcap.
Qed.

Lemma every_method_keeps_capacity_witness :
  0 <= 3
  ∧ Forall permuting sample_calls
  ∧ ∃ q, invoke_all sample_calls (__init__ 3) = Return tt q
         ∧ _max_size q = 3
         ∧ size q <= 3.
Proof.
  assert (H3 : 0 <= 3) by lia.
  split; [exact H3|]. split; [exact sample_calls_permuting|].
  exact (every_method_keeps_capacity 3 sample_calls H3 sample_calls_permuting).
Defined.

(** X3.  The history of recently played tracks never holds more than
    50 entries, whatever calls of the methods other than
    [restore_state] are made on a new queue. *)
Theorem history_never_exceeds_50 (max_size : Z) (ms : list method) :
  Forall permuting ms →
  ∃ q, invoke_all ms (__init__ max_size) = Return tt q
       ∧ Py.len (_history q) <= 50.
Proof.
  intros Hp.
  destruct (invoke_all_sound max_size ms (__init__ max_size) Hp
              (sound_init max_size)) as (q & Hrun & _ & Hh & _).
  by exists q.
Qed.

Lemma history_never_exceeds_50_witness :
  Forall permuting sample_calls
  ∧ ∃ q, invoke_all sample_calls (__init__ 500) = Return tt q
         ∧ Py.len (_history q) <= 50.
Proof.
  split; [exact sample_calls_permuting|].
  exact (history_never_exceeds_50 500 sample_calls sample_calls_permuting).
Defined.
End Invariants.

(** ** [next] and [previous] in the other loop modes *)

Section Advance.
Import MusicQueue.
Implicit Types (q : MusicQueue.t).

(** What [next] does to a queue with tracks, the history step being
    summed up by the history [h] it leaves. *)
Lemma next_cases q :
  size q ≠ 0 →
  ∃ h, next q =
       match _loop_mode q with
       | LoopMode.ONE => Return (current q) (set_history h q)
       | LoopMode.ALL =>
           if _current_index q + 1 <? size q
           then Return (current (set_current_index (_current_index q + 1) q))
                  (set_current_index (_current_index q + 1) (set_history h q))
           else Return (current (set_current_index 0 q))
                  (set_current_index 0 (set_history h q))
       | LoopMode.OFF =>
           if _current_index q + 1 <? size q
           then Return (current (set_current_index (_current_index q + 1) q))
                  (set_current_index (_current_index q + 1) (set_history h q))
           else Return None (set_history h q)
       end.
Proof.
  intros Hs. unfold next, is_empty.
  destruct (Z.eqb_spec (size q) 0); [done|].
  destruct (record_current_history q) as (h & -> & _). exists h.
  change (size (set_history h q)) with (size q).
  change (_current_index (set_history h q)) with (_current_index q).
  change (_loop_mode (set_history h q)) with (_loop_mode q).
  by destruct (_loop_mode q), (_current_index q + 1 <? size q).
Qed.

(** X4.  In loop mode ONE every [next] returns the current track and
    leaves the tracks, the cursor and the loop mode as they were,
    however often it is called and also on an empty queue, where that
    track is [None]. *)
Theorem next_loop_one_stays q (k : nat) :
  _loop_mode q = LoopMode.ONE →
  ∃ q', next_n (S k) q = Return (current q) q'
        ∧ _tracks q' = _tracks q
        ∧ _current_index q' = _current_index q
        ∧ _loop_mode q' = _loop_mode q
        ∧ _max_size q' = _max_size q.
Proof.
  intros Hmode.
  assert (Hone : ∀ q0, _loop_mode q0 = LoopMode.ONE →
            ∃ q', next q0 = Return (current q0) q'
                  ∧ _tracks q' = _tracks q0
                  ∧ _current_index q' = _current_index q0
                  ∧ _loop_mode q' = _loop_mode q0
                  ∧ _max_size q' = _max_size q0).
  { intros q0 Hm. destruct (decide (size q0 = 0)) as [Hz|Hnz].
    - exists q0. unfold next, is_empty. rewrite Hz. simpl.
      by rewrite (current_empty q0 Hz).
    - destruct (next_cases q0 Hnz) as (h & ->). rewrite Hm. by eexists. }
  induction k as [|k IH].
  - simpl. by apply Hone.
  - destruct IH as (q1 & Hrun & Ht & Hc & Hm & Hx).
    change (next_n (S (S k)) q) with
      (match next_n (S k) q with
       | Return _ q' => next q' | Raise e q' => Raise e q' end).
    rewrite Hrun.
    destruct (Hone q1) as (q2 & -> & Ht2 & Hc2 & Hm2 & Hx2); [congruence|].
    exists q2. repeat split; try congruence.
    f_equal. unfold current, size. by rewrite Ht, Hc.
Qed.

Lemma next_loop_one_stays_witness :
  _loop_mode (queue_of 500 [track_A; track_B] 1 LoopMode.ONE) = LoopMode.ONE
  ∧ ∃ q', next_n 3 (queue_of 500 [track_A; track_B] 1 LoopMode.ONE)
          = Return (Some track_B) q'
          ∧ _current_index q' = 1.
Proof.
  split; [reflexivity|].
  destruct (next_loop_one_stays (queue_of 500 [track_A; track_B] 1 LoopMode.ONE)
              2 eq_refl) as (q' & Hrun & _ & Hc & _).
  exists q'. split; [exact Hrun|exact Hc].
Defined.

(** One [next] in loop mode OFF on a valid cursor. *)
Lemma next_off_step q :
  _loop_mode q = LoopMode.OFF →
  0 <= _current_index q < size q →
  ∃ q', next q = Return (if _current_index q + 1 <? size q
                         then _tracks q !! Z.to_nat (_current_index q + 1)
                         else None) q'
        ∧ _tracks q' = _tracks q
        ∧ _loop_mode q' = LoopMode.OFF
        ∧ _max_size q' = _max_size q
        ∧ _current_index q' = Z.min (_current_index q + 1) (size q - 1).
Proof.
  intros Hmode Hc.
  destruct (next_cases q) as (h & ->); [lia|]. rewrite Hmode.
  destruct (Z.ltb_spec (_current_index q + 1) (size q)).
  - eexists. split.
    + f_equal. rewrite current_in_range; [done|]. simpl.
      change (size (set_current_index _ q)) with (size q). lia.
    + simpl. repeat split; try done. lia.
  - eexists. split; [done|]. simpl. repeat split; try done. lia.
Qed.

(** X5.  In loop mode OFF, starting from a valid cursor [c] on [N]
    tracks, the [k]-th successive [next] returns the track at [c + k]
    as long as there is one and [None] from then on; the cursor stops
    at the last track, [N - 1], and the tracks are left as they
    were. *)
Theorem next_loop_off_runs_out q (k : nat) :
  _loop_mode q = LoopMode.OFF →
  0 <= _current_index q < size q →
  ∃ q', next_n (S k) q
        = Return (if _current_index q + Z.of_nat (S k) <? size q
                  then _tracks q !! Z.to_nat (_current_index q + Z.of_nat (S k))
                  else None) q'
        ∧ _tracks q' = _tracks q
        ∧ _loop_mode q' = LoopMode.OFF
        ∧ _current_index q'
          = Z.min (_current_index q + Z.of_nat (S k)) (size q - 1).
Proof.
  intros Hmode Hc. induction k as [|k IH].
  - simpl next_n. destruct (next_off_step q Hmode Hc) as (q' & -> & ? & ? & ? & ?).
    exists q'. change (Z.of_nat 1) with 1. done.
  - destruct IH as (q1 & Hrun & Ht & Hm & Hi).
    change (next_n (S (S k)) q) with
      (match next_n (S k) q with
       | Return _ q' => next q' | Raise e q' => Raise e q' end).
    rewrite Hrun.
    assert (Hs1 : size q1 = size q) by (unfold size; by rewrite Ht).
    destruct (next_off_step q1 Hm) as (q2 & -> & Ht2 & Hm2 & _ & Hi2);
      [rewrite Hs1; lia|].
    exists q2. rewrite Hs1, Hi, Ht in *.
    split; [|repeat split; try congruence; lia].
    f_equal.
    destruct (Z.ltb_spec (_current_index q + Z.of_nat (S (S k))) (size q)).
    + destruct (Z.ltb_spec
        (Z.min (_current_index q + Z.of_nat (S k)) (size q - 1) + 1) (size q));
        [|lia].
      f_equal. lia.
    + destruct (Z.ltb_spec
        (Z.min (_current_index q + Z.of_nat (S k)) (size q - 1) + 1) (size q));
        [lia|done].
Qed.

Lemma next_loop_off_runs_out_witness :
  _loop_mode (queue_of 500 [track_A; track_B; track_C] 0 LoopMode.OFF) = LoopMode.OFF
  ∧ 0 <= _current_index (queue_of 500 [track_A; track_B; track_C] 0 LoopMode.OFF)
       < size (queue_of 500 [track_A; track_B; track_C] 0 LoopMode.OFF)
  ∧ (∃ q', next_n 2 (queue_of 500 [track_A; track_B; track_C] 0 LoopMode.OFF)
           = Return (Some track_C) q' ∧ _current_index q' = 2)
  ∧ (∃ q', next_n 3 (queue_of 500 [track_A; track_B; track_C] 0 LoopMode.OFF)
           = Return None q' ∧ _current_index q' = 2).
Proof.
  assert (Hc : 0 <= _current_index (queue_of 500 [track_A; track_B; track_C] 0 LoopMode.OFF)
               < size (queue_of 500 [track_A; track_B; track_C] 0 LoopMode.OFF)).
  { unfold size, Py.len. simpl. lia. }
  split; [reflexivity|]. split; [exact Hc|]. split.
  - destruct (next_loop_off_runs_out
                (queue_of 500 [track_A; track_B; track_C] 0 LoopMode.OFF)
                1 eq_refl Hc) as (q' & Hrun & _ & _ & Hi).
    exists q'. split; [exact Hrun|exact Hi].
  - destruct (next_loop_off_runs_out
                (queue_of 500 [track_A; track_B; track_C] 0 LoopMode.OFF)
                2 eq_refl Hc) as (q' & Hrun & _ & _ & Hi).
    exists q'. split; [exact Hrun|exact Hi].
Defined.

(** X6.  When [next] moves the cursor (loop mode ALL, or loop mode OFF
    with a track after the cursor), a following [previous] returns the
    track that was current before and puts the cursor back where it
    was, the tracks being untouched. *)
Theorem previous_undoes_next q :
  0 <= _current_index q < size q →
  _loop_mode q = LoopMode.ALL
  ∨ (_loop_mode q = LoopMode.OFF ∧ _current_index q + 1 < size q) →
  ∃ track q1 q2,
    next q = Return (Some track) q1
    ∧ previous q1 = Return (current q) q2
    ∧ _tracks q2 = _tracks q
    ∧ _current_index q2 = _current_index q
    ∧ _loop_mode q2 = _loop_mode q.
Proof.
  intros Hc Hmode.
  destruct (next_cases q) as (h & Hnext); [lia|].
  assert (Hback : ∀ i, 0 <= i < size q →
            (0 < i ∧ i - 1 = _current_index q)
            ∨ (i = 0 ∧ _loop_mode q = LoopMode.ALL
               ∧ size q - 1 = _current_index q) →
            ∃ track q2,
              current (set_current_index i q) = Some track
              ∧ previous (set_current_index i (set_history h q))
                = Return (current q) q2
              ∧ _tracks q2 = _tracks q
              ∧ _current_index q2 = _current_index q
              ∧ _loop_mode q2 = _loop_mode q).
  { intros i Hi Hprev.
    destruct (lookup_in_range (_tracks q) i Hi) as [track Htrack].
    exists track. unfold previous. simpl.
    change (size (set_current_index i (set_history h q))) with (size q).
    assert (Hcur : ∀ j, j = _current_index q →
              current (set_current_index j (set_current_index i (set_history h q)))
              = current q).
    { intros j ->. unfold current. by destruct q. }
    destruct Hprev as [[Hpos Heq]|(-> & Hall & Heq)].
    - destruct (Z.ltb_spec 0 i); [|lia].
      eexists. split; [|split; [by rewrite (Hcur _ Heq)|by simpl]].
      rewrite current_in_range; [done|]. simpl.
      change (size (set_current_index i q)) with (size q). lia.
    - simpl. rewrite Hall. simpl.
      destruct (Z.ltb_spec 0 (size q)); [|lia].
      eexists. split; [|split; [by rewrite (Hcur _ Heq)|by simpl]].
      rewrite current_in_range; [done|]. simpl.
      change (size (set_current_index 0 q)) with (size q). lia. }
  destruct Hmode as [Hall|[Hoff Hroom]].
  - rewrite Hall in Hnext.
    destruct (Z.ltb_spec (_current_index q + 1) (size q)).
    + destruct (Hback (_current_index q + 1)) as (t & q2 & Ht & Hp & ?);
        [lia|left; lia|].
      eexists t, _, q2. rewrite Hnext, Ht. done.
    + destruct (Hback 0) as (t & q2 & Ht & Hp & ?);
        [lia|right; repeat split; [done|lia]|].
      eexists t, _, q2. rewrite Hnext, Ht. done.
  - rewrite Hoff in Hnext.
    destruct (Z.ltb_spec (_current_index q + 1) (size q)); [|lia].
    destruct (Hback (_current_index q + 1)) as (t & q2 & Ht & Hp & ?);
      [lia|left; lia|].
    eexists t, _, q2. rewrite Hnext, Ht. done.
Qed.

Lemma previous_undoes_next_witness :
  0 <= _current_index (queue_of 500 [track_A; track_B; track_C] 2 LoopMode.ALL)
     < size (queue_of 500 [track_A; track_B; track_C] 2 LoopMode.ALL)
  ∧ ∃ q1 q2,
      next (queue_of 500 [track_A; track_B; track_C] 2 LoopMode.ALL)
      = Return (Some track_A) q1
      ∧ previous q1 = Return (Some track_C) q2
      ∧ _current_index q2 = 2.
Proof.
  assert (Hc : 0 <= _current_index (queue_of 500 [track_A; track_B; track_C] 2 LoopMode.ALL)
               < size (queue_of 500 [track_A; track_B; track_C] 2 LoopMode.ALL)).
  { unfold size, Py.len. simpl. lia. }
  split; [exact Hc|].
  destruct (previous_undoes_next
              (queue_of 500 [track_A; track_B; track_C] 2 LoopMode.ALL)
              Hc (or_introl eq_refl))
    as (track & q1 & q2 & Hn & Hp & _ & Hi & _).
  exists q1, q2. split; [|split; [exact Hp|exact Hi]].
  rewrite Hn. f_equal. by injection Hn as <- _.
Defined.
End Advance.

(** ** [clear_upcoming], [get_state] and [add_many] *)

Section Trimming.
Import MusicQueue.
Implicit Types (q : MusicQueue.t).

(** X7.  On a queue whose cursor is not negative, [clear_upcoming]
    returns the number of upcoming tracks and removes exactly those:
    the tracks up to and including the cursor stay, the current track
    and the cursor are unchanged, no track is upcoming afterwards, and
    a second call returns 0 and changes nothing. *)
Theorem clear_upcoming_removes_upcoming q :
  0 <= _current_index q →
  ∃ q', clear_upcoming q = Return (Py.len (upcoming q)) q'
        ∧ _tracks q' = take (Z.to_nat (_current_index q + 1)) (_tracks q)
        ∧ _tracks q' ++ upcoming q = _tracks q
        ∧ upcoming q' = []
        ∧ current q' = current q
        ∧ _current_index q' = _current_index q
        ∧ clear_upcoming q' = Return 0 q'.
Proof.
  intros Hc. unfold clear_upcoming, upcoming.
  destruct (Z.ltb_spec (_current_index q + 1) (size q)) as [Hlt|Hge].
  - assert (Hb : Py.bound (_tracks q) (_current_index q + 1)
                 = Z.to_nat (_current_index q + 1)).
    { apply bound_in_range. unfold size in Hlt. lia. }
    assert (Hs : Py.len (take (Z.to_nat (_current_index q + 1)) (_tracks q))
                 = _current_index q + 1).
    { unfold Py.len. rewrite length_take. unfold size, Py.len in Hlt. lia. }
    eexists. split.
    { f_equal. unfold Py.slice_from, Py.len. rewrite Hb, length_drop.
      unfold size, Py.len in *. lia. }
    unfold Py.slice_to, Py.slice_from. rewrite Hb. simpl.
    unfold size. simpl. rewrite Hs, Z.ltb_irrefl.
    repeat split; try done.
    + apply take_drop.
    + unfold current, size. simpl. rewrite Hs.
      destruct (Z.leb_spec 0 (_current_index q)); [|lia].
      destruct (Z.ltb_spec (_current_index q) (_current_index q + 1)); [|lia].
      destruct (Z.ltb_spec (_current_index q) (Py.len (_tracks q)));
        [|unfold size in Hlt; lia].
      simpl. rewrite !getitem_in_range by lia.
      apply lookup_take_lt. lia.
  - exists q. unfold size in *.
    destruct (Z.ltb_spec (_current_index q + 1) (Py.len (_tracks q))); [lia|].
    repeat split; try done.
    + rewrite take_ge; [done|]. unfold Py.len in *. lia.
    + by rewrite app_nil_r.
Qed.

Lemma clear_upcoming_removes_upcoming_witness :
  0 <= _current_index (queue_of 500 [track_A; track_B; track_C; track_D] 1 LoopMode.OFF)
  ∧ clear_upcoming (queue_of 500 [track_A; track_B; track_C; track_D] 1 LoopMode.OFF)
    = Return 2 (queue_of 500 [track_A; track_B] 1 LoopMode.OFF).
Proof.
  assert (Hc : 0 <= _current_index
                 (queue_of 500 [track_A; track_B; track_C; track_D] 1 LoopMode.OFF))
    by (simpl; lia).
  split; [exact Hc|].
  destruct (clear_upcoming_removes_upcoming
              (queue_of 500 [track_A; track_B; track_C; track_D] 1 LoopMode.OFF) Hc)
    as (q' & Hrun & _).
  rewrite Hrun. by injection Hrun as <-.
Defined.

(** X8.  Restoring into any queue the state [get_state] took from a
    queue [q] returns without an exception and reproduces the tracks
    and the loop mode of [q]; the cursor of [q] is reproduced exactly
    when it is not past the last track (in particular whenever it is
    valid), and is lowered to the last track otherwise.  The capacity
    and the history of the receiving queue are kept. *)
Theorem restore_state_get_state q0 q :
  ∃ q', restore_state (saved_tracks (get_state q))
          (saved_current_index (get_state q))
          (saved_loop_mode (get_state q)) q0 = Return tt q'
        ∧ _tracks q' = _tracks q
        ∧ _loop_mode q' = _loop_mode q
        ∧ (_current_index q' = _current_index q
           ↔ _current_index q <= Z.max 0 (size q - 1))
        ∧ (cursor_ok q → _current_index q' = _current_index q)
        ∧ _max_size q' = _max_size q0
        ∧ _history q' = _history q0.
Proof.
  unfold restore_state, get_state. simpl. rewrite of_value_value.
  eexists. split; [done|]. simpl. unfold cursor_ok, size.
  pose proof (len_nonneg (_tracks q)).
  repeat split; try done; lia.
Qed.

(** X9.  A loop-mode string other than ["off"], ["one"] and ["all"]
    makes [restore_state] raise [ValueError] after it has already
    replaced the tracks and the cursor: the queue is left with the new
    tracks and cursor and its old loop mode. *)
Theorem restore_state_unknown_loop_mode q tracks current_index loop_mode :
  loop_mode ≠ "off" → loop_mode ≠ "one" → loop_mode ≠ "all" →
  ∃ q', restore_state tracks current_index loop_mode q = Raise ValueError q'
        ∧ _tracks q' = tracks
        ∧ _current_index q'
          = Z.min current_index (Z.max 0 (Py.len tracks - 1))
        ∧ _loop_mode q' = _loop_mode q.
Proof.
  intros Hoff Hone Hall. unfold restore_state, LoopMode.of_value.
  rewrite !decide_False by done. by eexists.
Qed.

Lemma restore_state_unknown_loop_mode_witness :
  "ALL" ≠ "off" ∧ "ALL" ≠ "one" ∧ "ALL" ≠ "all"
  ∧ restore_state [track_A; track_B] 1 "ALL"
      (queue_of 500 [track_C] 0 LoopMode.ONE)
    = Raise ValueError (queue_of 500 [track_A; track_B] 1 LoopMode.ONE).
Proof.
  assert (H1 : "ALL" ≠ "off") by discriminate.
  assert (H2 : "ALL" ≠ "one") by discriminate.
  assert (H3 : "ALL" ≠ "all") by discriminate.
  split; [exact H1|]. split; [exact H2|]. split; [exact H3|].
  destruct (restore_state_unknown_loop_mode
              (queue_of 500 [track_C] 0 LoopMode.ONE)
              [track_A; track_B] 1 "ALL" H1 H2 H3) as (q' & Hrun & _).
  rewrite Hrun. by injection Hrun as <-.
Defined.

(** X10.  On a queue that holds no more than [max_size] tracks,
    [add_many] accepts as many tracks as fit: it returns the smaller of
    the batch length and the remaining capacity, and appends that many
    tracks from the front of the batch, in order. *)
Theorem add_many_accepts_what_fits batch q :
  size q <= _max_size q →
  add_many batch q
  = Return (Z.min (Py.len batch) (_max_size q - size q))
      (set_tracks (_tracks q ++ take (Z.to_nat (_max_size q - size q)) batch) q).
Proof.
  intros Hroom. unfold add_many. rewrite len_slice_to.
  unfold Py.slice_to, Py.bound.
  destruct (Z.ltb_spec (_max_size q - size q) 0); [lia|].
  pose proof (len_nonneg batch) as Hb.
  f_equal; [lia|]. f_equal. f_equal.
  destruct (Z.le_ge_cases (_max_size q - size q) (Py.len batch)).
  - f_equal. lia.
  - rewrite Z.min_r by lia.
    rewrite !take_ge; [done| |]; unfold Py.len in *; lia.
Qed.

Lemma add_many_accepts_what_fits_witness :
  size (queue_of 3 [track_A] 0 LoopMode.OFF)
  <= _max_size (queue_of 3 [track_A] 0 LoopMode.OFF)
  ∧ add_many [track_B; track_C; track_D; track_E] (queue_of 3 [track_A] 0 LoopMode.OFF)
    = Return 2 (queue_of 3 [track_A; track_B; track_C] 0 LoopMode.OFF).
Proof.
  assert (Hr : size (queue_of 3 [track_A] 0 LoopMode.OFF)
               <= _max_size (queue_of 3 [track_A] 0 LoopMode.OFF)).
  { unfold size, Py.len. simpl. lia. }
  split; [exact Hr|].
  rewrite (add_many_accepts_what_fits [track_B; track_C; track_D; track_E]
             (queue_of 3 [track_A] 0 LoopMode.OFF) Hr).
  reflexivity.
Defined.
End Trimming.

(** ** [insert] *)

Section Insert.
Import MusicQueue.
Implicit Types (q : MusicQueue.t) (track : Track.t).

(** [insert] on a queue with room and a valid cursor, written out. *)
Lemma insert_in_range q index track :
  0 <= _current_index q < size q →
  size q < _max_size q →
  ∃ p : nat,
    Z.of_nat p = Z.max (_current_index q + 1) (Z.min index (size q))
    ∧ (p <= length (_tracks q))%nat
    ∧ insert index track q
      = Return true (set_tracks (take p (_tracks q) ++ track :: drop p (_tracks q)) q).
Proof.
  intros Hc Hroom.
  exists (Z.to_nat (Z.max (_current_index q + 1) (Z.min index (size q)))).
  unfold size, Py.len in *.
  split; [lia|]. split; [lia|].
  unfold insert, size, Py.insert.
  destruct (Z.leb_spec (_max_size q) (Py.len (_tracks q)));
    [unfold Py.len in *; lia|].
  rewrite bound_in_range; [done|]. unfold Py.len. lia.
Qed.

(** X11.  On a queue with room and a valid cursor, [insert] returns
    [True] and puts the track at the requested index brought into the
    range from just after the cursor to the end of the list: never at
    or before the cursor.  The tracks before that position, the cursor
    and the current track are unchanged, and the tracks from that
    position on move up by one.  Asked for an index at or before the
    cursor, as [MusicPlayer.play] does, it makes the track the next
    one to play. *)
Theorem insert_lands_after_cursor q index track :
  0 <= _current_index q < size q →
  size q < _max_size q →
  ∃ (p : nat) q',
    insert index track q = Return true q'
    ∧ Z.of_nat p = Z.max (_current_index q + 1) (Z.min index (size q))
    ∧ _current_index q < Z.of_nat p <= size q
    ∧ _tracks q' !! p = Some track
    ∧ (∀ i : nat, (i < p)%nat → _tracks q' !! i = _tracks q !! i)
    ∧ (∀ i : nat, (p <= i)%nat → _tracks q' !! S i = _tracks q !! i)
    ∧ size q' = size q + 1
    ∧ _current_index q' = _current_index q
    ∧ current q' = current q
    ∧ (index <= _current_index q + 1 → upcoming q' = track :: upcoming q).
Proof.
  intros Hc Hroom.
  destruct (insert_in_range q index track Hc Hroom) as (p & Hp & Hple & ->).
  pose proof (len_nonneg (_tracks q)) as Hnn.
  eexists p, _. split; [done|]. split; [done|].
  assert (Hsize : size (set_tracks (take p (_tracks q) ++ track :: drop p (_tracks q)) q)
                  = size q + 1).
  { unfold size, Py.len. simpl.
    rewrite length_app, length_take. simpl. rewrite length_drop. lia. }
  split; [unfold size, Py.len in *; lia|].
  simpl. split.
  { rewrite inserted_lookup by done. rewrite decide_False by lia.
    by rewrite decide_True. }
  split.
  { intros i Hi. rewrite inserted_lookup by done. by rewrite decide_True. }
  split.
  { intros i Hi. rewrite inserted_lookup by done.
    rewrite !decide_False by lia. f_equal. lia. }
  split; [done|]. split; [done|]. split.
  { rewrite !current_in_range by (rewrite ?Hsize; simpl; lia). simpl.
    rewrite inserted_lookup by done. rewrite decide_True; [done|].
    unfold size, Py.len in *. lia. }
  intros Hnext. unfold upcoming. rewrite Hsize. simpl.
  destruct (Z.ltb_spec (_current_index q + 1) (size q + 1)); [|lia].
  assert (Hpe : p = Z.to_nat (_current_index q + 1)) by lia.
  unfold Py.slice_from.
  rewrite (bound_in_range (take p _ ++ _)), (bound_in_range (_tracks q)).
  - rewrite <- Hpe.
    rewrite drop_app_ge by (rewrite length_take; lia).
    rewrite length_take, Nat.min_l, Nat.sub_diag by lia. simpl.
    destruct (Z.ltb_spec (_current_index q + 1) (size q)); [done|].
    rewrite drop_ge; [done|]. unfold size, Py.len in *. lia.
  - unfold size in *. lia.
  - unfold size in *. simpl in Hsize. rewrite Hsize. lia.
Qed.

Lemma insert_lands_after_cursor_witness :
  0 <= _current_index (queue_of 500 [track_A; track_B; track_C] 1 LoopMode.OFF)
     < size (queue_of 500 [track_A; track_B; track_C] 1 LoopMode.OFF)
  ∧ size (queue_of 500 [track_A; track_B; track_C] 1 LoopMode.OFF)
    < _max_size (queue_of 500 [track_A; track_B; track_C] 1 LoopMode.OFF)
  ∧ insert 0 track_D (queue_of 500 [track_A; track_B; track_C] 1 LoopMode.OFF)
    = Return true (queue_of 500 [track_A; track_B; track_D; track_C] 1 LoopMode.OFF).
Proof.
  assert (Hc : 0 <= _current_index (queue_of 500 [track_A; track_B; track_C] 1 LoopMode.OFF)
               < size (queue_of 500 [track_A; track_B; track_C] 1 LoopMode.OFF)).
  { unfold size, Py.len. simpl. lia. }
  assert (Hr : size (queue_of 500 [track_A; track_B; track_C] 1 LoopMode.OFF)
               < _max_size (queue_of 500 [track_A; track_B; track_C] 1 LoopMode.OFF)).
  { unfold size, Py.len. simpl. lia. }
  split; [exact Hc|]. split; [exact Hr|].
  destruct (insert_lands_after_cursor
              (queue_of 500 [track_A; track_B; track_C] 1 LoopMode.OFF)
              0 track_D Hc Hr) as (p & q' & Hrun & _).
  rewrite Hrun. by injection Hrun as <-.
Defined.

(** X12.  Removing a track just inserted, at the position [insert]
    put it, returns that track and gives back the queue exactly as it
    was before the insertion. *)
Theorem remove_undoes_insert q index track :
  0 <= _current_index q < size q →
  size q < _max_size q →
  ∃ q', insert index track q = Return true q'
        ∧ remove (Z.max (_current_index q + 1) (Z.min index (size q))) q'
          = Return (Some track) q.
Proof.
  intros Hc Hroom.
  destruct (insert_in_range q index track Hc Hroom) as (p & Hp & Hple & ->).
  eexists. split; [done|]. rewrite <- Hp.
  set (l := take p (_tracks q) ++ track :: drop p (_tracks q)).
  assert (Hlen : length l = S (length (_tracks q))).
  { unfold l. rewrite length_app, length_take. simpl. rewrite length_drop. lia. }
  assert (Hat : l !! p = Some track).
  { unfold l. apply list_lookup_middle. rewrite length_take. lia. }
  assert (Hdel : delete p l = _tracks q).
  { unfold l.
    assert (Hp' : p = length (take p (_tracks q))) by (rewrite length_take; lia).
    rewrite Hp' at 1. rewrite delete_middle. apply take_drop. }
  unfold remove, size. simpl.
  destruct (Z.leb_spec 0 (Z.of_nat p)); [|lia].
  destruct (Z.ltb_spec (Z.of_nat p) (Py.len l)); [|unfold Py.len in *; lia].
  simpl.
  destruct (pop_in_range l (Z.of_nat p)) as (x & Hx & ->); [lia|].
  rewrite Nat2Z.id in *. rewrite Hat in Hx. injection Hx as <-.
  rewrite Hdel. simpl.
  destruct (Z.ltb_spec (Z.of_nat p) (_current_index q)); [lia|].
  destruct (Z.eqb_spec (Z.of_nat p) (_current_index q)); [lia|].
  simpl. by destruct q.
Qed.

Lemma remove_undoes_insert_witness :
  0 <= _current_index (queue_of 500 [track_A; track_B; track_C] 1 LoopMode.OFF)
     < size (queue_of 500 [track_A; track_B; track_C] 1 LoopMode.OFF)
  ∧ size (queue_of 500 [track_A; track_B; track_C] 1 LoopMode.OFF)
    < _max_size (queue_of 500 [track_A; track_B; track_C] 1 LoopMode.OFF)
  ∧ ∃ q', insert 7 track_D (queue_of 500 [track_A; track_B; track_C] 1 LoopMode.OFF)
          = Return true q'
          ∧ remove 3 q'
            = Return (Some track_D)
                (queue_of 500 [track_A; track_B; track_C] 1 LoopMode.OFF).
Proof.
  assert (Hc : 0 <= _current_index (queue_of 500 [track_A; track_B; track_C] 1 LoopMode.OFF)
               < size (queue_of 500 [track_A; track_B; track_C] 1 LoopMode.OFF)).
  { unfold size, Py.len. simpl. lia. }
  assert (Hr : size (queue_of 500 [track_A; track_B; track_C] 1 LoopMode.OFF)
               < _max_size (queue_of 500 [track_A; track_B; track_C] 1 LoopMode.OFF)).
  { unfold size, Py.len. simpl. lia. }
  split; [exact Hc|]. split; [exact Hr|].
  exact (remove_undoes_insert
           (queue_of 500 [track_A; track_B; track_C] 1 LoopMode.OFF)
           7 track_D Hc Hr).
Defined.
End Insert.

(** ** [move] there and back, and [total_duration] *)

Section MoveBack.
Import MusicQueue.
Implicit Types (q : MusicQueue.t) (l : list Track.t) (track : Track.t).

(** Putting a track back where it was taken from gives the list
    back. *)
Lemma reinsert_deleted l (f : nat) track :
  l !! f = Some track →
  take f (delete f l) ++ track :: drop f (delete f l) = l.
Proof.
  intros Hx.
  assert (Hf : (f < length l)%nat) by (by eapply lookup_lt_Some).
  rewrite delete_take_drop.
  rewrite take_app_length', drop_app_length' by (rewrite length_take; lia).
  by apply take_drop_middle.
Qed.

(** [move] at valid indices, written out. *)
Lemma move_in_range q from_index to_index :
  0 <= from_index < size q →
  0 <= to_index < size q →
  ∃ track,
    _tracks q !! Z.to_nat from_index = Some track
    ∧ move from_index to_index q
      = Return true
          (set_current_index
             (if from_index =? _current_index q then to_index
              else if (from_index <? _current_index q)
                      && (_current_index q <=? to_index)
              then _current_index q - 1
              else if (to_index <=? _current_index q)
                      && (_current_index q <? from_index)
              then _current_index q + 1
              else _current_index q)
             (set_tracks
                (take (Z.to_nat to_index) (delete (Z.to_nat from_index) (_tracks q))
                 ++ track
                 :: drop (Z.to_nat to_index) (delete (Z.to_nat from_index) (_tracks q)))
                q)).
Proof.
  intros Hf Ht. unfold move.
  destruct (Z.leb_spec 0 from_index); [|lia].
  destruct (Z.ltb_spec from_index (size q)); [|lia].
  destruct (Z.leb_spec 0 to_index); [|lia].
  destruct (Z.ltb_spec to_index (size q)); [|lia]. simpl.
  destruct (pop_in_range (_tracks q) from_index) as (x & Hx & ->); [done|].
  exists x. split; [done|].
  unfold Py.insert. rewrite bound_in_range.
  - simpl.
    by destruct (from_index =? _current_index q),
                ((from_index <? _current_index q) && (_current_index q <=? to_index)),
                ((to_index <=? _current_index q) && (_current_index q <? from_index)).
  - rewrite len_delete; unfold size, Py.len in *; lia.
Qed.

(** X13.  Moving a track and then moving it back gives the queue
    exactly as it was: the same tracks in the same order and the same
    cursor, whatever the cursor is. *)
Theorem move_there_and_back q from_index to_index :
  0 <= from_index < size q →
  0 <= to_index < size q →
  ∃ q', move from_index to_index q = Return true q'
        ∧ move to_index from_index q' = Return true q.
Proof.
  intros Hf Ht.
  destruct (move_in_range q from_index to_index Hf Ht) as (x & Hx & Hmove).
  rewrite Hmove. eexists. split; [reflexivity|].
  set (f := Z.to_nat from_index) in *. set (t := Z.to_nat to_index) in *.
  set (d := delete f (_tracks q)) in *.
  set (m := take t d ++ x :: drop t d).
  assert (Hlf : (f < length (_tracks q))%nat) by (by eapply lookup_lt_Some).
  assert (Hsize : size q = Z.of_nat (length (_tracks q))) by reflexivity.
  assert (Hd : length d = (length (_tracks q) - 1)%nat).
  { apply length_delete. eauto. }
  assert (Hlt : length (take t d) = t) by (rewrite length_take; lia).
  assert (Hlm : length m = length (_tracks q)).
  { unfold m. rewrite length_app, Hlt. simpl. rewrite length_drop. lia. }
  assert (Hat : m !! t = Some x) by (by apply list_lookup_middle).
  assert (Hdel : delete t m = d).
  { unfold m. rewrite <- Hlt at 1. rewrite delete_middle. apply take_drop. }
  set (c := _current_index q) in *.
  set (c1 := if from_index =? c then to_index
             else if (from_index <? c) && (c <=? to_index) then c - 1
             else if (to_index <=? c) && (c <? from_index) then c + 1
             else c).
  set (q1 := set_current_index c1 (set_tracks m q)).
  assert (Hs1 : size q1 = size q).
  { unfold size, Py.len. simpl. by rewrite Hlm. }
  destruct (move_in_range q1 to_index from_index) as (y & Hy & ->);
    [lia|lia|].
  change (_tracks q1) with m in *. fold t f in Hy |- *.
  rewrite Hat in Hy. injection Hy as <-.
  rewrite Hdel. unfold d. rewrite (reinsert_deleted _ _ _ Hx).
  change (_current_index q1) with c1.
  assert (Hback : (if to_index =? c1 then from_index
                   else if (to_index <? c1) && (c1 <=? from_index) then c1 - 1
                   else if (from_index <=? c1) && (c1 <? to_index) then c1 + 1
                   else c1) = c).
  { unfold c1.
    destruct (Z.eqb_spec from_index c), (Z.ltb_spec from_index c),
             (Z.leb_spec c to_index), (Z.leb_spec to_index c),
             (Z.ltb_spec c from_index); simpl; try lia;
    repeat match goal with
           | |- context [?a =? ?b] => destruct (Z.eqb_spec a b); simpl; try lia
           | |- context [?a <? ?b] => destruct (Z.ltb_spec a b); simpl; try lia
           | |- context [?a <=? ?b] => destruct (Z.leb_spec a b); simpl; try lia
           end. }
  rewrite Hback. f_equal. unfold c. by destruct q.
Qed.

Lemma move_there_and_back_witness :
  0 <= 0 < size (queue_of 500 [track_A; track_B; track_C; track_D] 2 LoopMode.OFF)
  ∧ 0 <= 3 < size (queue_of 500 [track_A; track_B; track_C; track_D] 2 LoopMode.OFF)
  ∧ ∃ q', move 0 3 (queue_of 500 [track_A; track_B; track_C; track_D] 2 LoopMode.OFF)
          = Return true q'
          ∧ move 3 0 q'
            = Return true
                (queue_of 500 [track_A; track_B; track_C; track_D] 2 LoopMode.OFF).
Proof.
  assert (Hf : 0 <= 0 < size (queue_of 500 [track_A; track_B; track_C; track_D]
                                 2 LoopMode.OFF)).
  { unfold size, Py.len. simpl. lia. }
  assert (Ht : 0 <= 3 < size (queue_of 500 [track_A; track_B; track_C; track_D]
                                 2 LoopMode.OFF)).
  { unfold size, Py.len. simpl. lia. }
  split; [exact Hf|]. split; [exact Ht|].
  exact (move_there_and_back
           (queue_of 500 [track_A; track_B; track_C; track_D] 2 LoopMode.OFF)
           0 3 Hf Ht).
Defined.

(** The sum [total_duration] computes. *)
Lemma fold_durations_shift l (a : Z) :
  fold_left (λ acc track, acc + Track.duration track) l a
  = a + fold_left (λ acc track, acc + Track.duration track) l 0.
Proof.
  revert a. induction l as [|x l IH]; intros a; simpl; [lia|].
  rewrite (IH (a + Track.duration x)), (IH (0 + Track.duration x)). lia.
Qed.

Lemma total_duration_cons track l q :
  total_duration (set_tracks (track :: l) q)
  = Track.duration track + total_duration (set_tracks l q).
Proof. unfold total_duration. simpl. by rewrite fold_durations_shift. Qed.

Lemma total_duration_permutation l l' q :
  l ≡ₚ l' →
  total_duration (set_tracks l q) = total_duration (set_tracks l' q).
Proof.
  induction 1 as [|x l1 l2 _ IH|x y l1|l1 l2 l3 _ IH1 _ IH2].
  - done.
  - rewrite !total_duration_cons. by rewrite IH.
  - rewrite !total_duration_cons. lia.
  - by rewrite IH1.
Qed.

Lemma total_duration_set_tracks q : total_duration (set_tracks (_tracks q) q) = total_duration q.
Proof. reflexivity. Qed.

Lemma total_duration_app l1 l2 q :
  total_duration (set_tracks (l1 ++ l2) q)
  = total_duration (set_tracks l1 q) + total_duration (set_tracks l2 q).
Proof.
  induction l1 as [|x l1 IH]; simpl.
  - unfold total_duration at 2. simpl. lia.
  - rewrite !total_duration_cons, IH. lia.
Qed.

(** X14.  [total_duration] follows every change of the track list: an
    accepted [add] raises it by the duration of the track, a [remove]
    that returns a track lowers it by the duration of that track, and
    [shuffle] and [move] leave it as it was. *)
Theorem total_duration_accounting q (rnd : list Track.t → list Track.t) :
  (∀ l, rnd l ≡ₚ l) →
  (∀ track q', add track q = Return true q' →
     total_duration q' = total_duration q + Track.duration track)
  ∧ (∀ index track q', remove index q = Return (Some track) q' →
       total_duration q' = total_duration q - Track.duration track)
  ∧ total_duration (state (shuffle rnd q)) = total_duration q
  ∧ (∀ from_index to_index,
       total_duration (state (move from_index to_index q)) = total_duration q).
Proof.
  intros Hrnd. split; [|split; [|split]].
  - intros track q' Hadd. unfold add in Hadd.
    destruct (_max_size q <=? size q); [done|]. injection Hadd as <-.
    rewrite total_duration_app, total_duration_cons, total_duration_set_tracks.
    change (total_duration (set_tracks [] q)) with 0. lia.
  - intros index track q' Hrem. unfold remove in Hrem.
    destruct (Z.leb_spec 0 index), (Z.ltb_spec index (size q));
      simpl in Hrem; try done.
    destruct (pop_in_range (_tracks q) index) as (x & Hx & Hpop); [done|].
    rewrite Hpop in Hrem. injection Hrem as <- <-.
    rewrite <- (total_duration_set_tracks q).
    rewrite (total_duration_permutation _ _ q (delete_Permutation _ _ _ Hx)).
    rewrite total_duration_cons.
    match goal with |- total_duration ?q0 = _ =>
      assert (Heq : total_duration q0
                    = total_duration (set_tracks (delete (Z.to_nat index) (_tracks q)) q))
    end.
    { by repeat match goal with |- context [if ?b then _ else _] => destruct b end. }
    rewrite Heq. lia.
  - unfold shuffle.
    destruct (_current_index q + 1 <? size q); [|done]. simpl.
    rewrite <- (total_duration_set_tracks q).
    apply total_duration_permutation.
    rewrite (Hrnd _). by rewrite slice_to_from.
  - intros from_index to_index.
    destruct (decide (0 <= from_index < size q ∧ 0 <= to_index < size q))
      as [[Hf Ht]|Hbad].
    + destruct (move_in_range q from_index to_index Hf Ht) as (x & Hx & ->).
      simpl. rewrite <- (total_duration_set_tracks q).
      match goal with |- total_duration ?q0 = _ =>
        change (total_duration q0) with
          (total_duration (set_tracks
             (take (Z.to_nat to_index) (delete (Z.to_nat from_index) (_tracks q))
              ++ x :: drop (Z.to_nat to_index)
                        (delete (Z.to_nat from_index) (_tracks q))) q))
      end.
      apply total_duration_permutation.
      etransitivity; [symmetry; apply Permutation_middle|].
      rewrite take_drop. symmetry. by apply delete_Permutation.
    + unfold move.
      destruct (Z.leb_spec 0 from_index), (Z.ltb_spec from_index (size q)),
               (Z.leb_spec 0 to_index), (Z.ltb_spec to_index (size q));
        simpl; try done; lia.
Qed.

Lemma total_duration_accounting_witness :
  (∀ l : list Track.t, reverse l ≡ₚ l)
  ∧ total_duration (queue_of 500 [track_A; track_B; track_C] 0 LoopMode.OFF) = 680
  ∧ total_duration
      (state (shuffle reverse (queue_of 500 [track_A; track_B; track_C] 0 LoopMode.OFF)))
    = total_duration (queue_of 500 [track_A; track_B; track_C] 0 LoopMode.OFF).
Proof.
  split; [apply reverse_Permutation|]. split; [reflexivity|].
  exact (proj1 (proj2 (proj2 (total_duration_accounting
           (queue_of 500 [track_A; track_B; track_C] 0 LoopMode.OFF)
           reverse reverse_Permutation)))).
Defined.
End MoveBack.

(** ** What [seek] leaves alone *)

Section SeekFrame.
Context {float VoiceClient AudioSource : Type}.
Implicit Types (w : @MusicPlayer.world float VoiceClient AudioSource)
               (p : @MusicPlayer.t float VoiceClient).

(** X15.  Whatever the collaborators answer, [seek] never touches the
    queue, the volume, the playing and paused flags, the guild, the
    configuration or the activity time stamp.  When it returns [True]
    the player had a current track and a voice connection, the
    position asked for was not negative and, for a track of positive
    duration, was before its end, and the recorded position is that
    position; when it returns [False] the recorded position is
    unchanged. *)
Theorem seek_frame w seconds p :
  MusicPlayer.queue (MusicPlayer.seek w seconds p).2 = MusicPlayer.queue p
  ∧ MusicPlayer._volume (MusicPlayer.seek w seconds p).2 = MusicPlayer._volume p
  ∧ MusicPlayer._is_playing (MusicPlayer.seek w seconds p).2
    = MusicPlayer._is_playing p
  ∧ MusicPlayer._paused (MusicPlayer.seek w seconds p).2 = MusicPlayer._paused p
  ∧ MusicPlayer.guild_id (MusicPlayer.seek w seconds p).2 = MusicPlayer.guild_id p
  ∧ MusicPlayer.config (MusicPlayer.seek w seconds p).2 = MusicPlayer.config p
  ∧ MusicPlayer._last_activity (MusicPlayer.seek w seconds p).2
    = MusicPlayer._last_activity p
  ∧ ((MusicPlayer.seek w seconds p).1 = true →
     MusicPlayer._current_position (MusicPlayer.seek w seconds p).2 = seconds
     ∧ 0 <= seconds
     ∧ is_Some (MusicPlayer._voice_client p)
     ∧ ∃ track, MusicPlayer.current_track p = Some track
                ∧ (0 < Track.duration track → seconds < Track.duration track))
  ∧ ((MusicPlayer.seek w seconds p).1 = false →
     MusicPlayer._current_position (MusicPlayer.seek w seconds p).2
     = MusicPlayer._current_position p).
Proof.
  unfold MusicPlayer.seek, MusicPlayer.current_track.
  destruct (MusicQueue.current (MusicPlayer.queue p)) as [track|];
    [|by repeat split].
  destruct (MusicPlayer._voice_client p) as [vc|] eqn:Hvc; [|by repeat split].
  destruct (Z.ltb_spec seconds 0); simpl; [by repeat split|].
  destruct (Z.ltb_spec 0 (Track.duration track)),
           (Z.leb_spec (Track.duration track) seconds); simpl;
    try by repeat split.
  all: destruct (MusicPlayer.get_stream_url w track) as [stream_url|];
    [|by repeat split].
  all: destruct (decide (stream_url = "")); [by repeat split|].
  all: destruct (MusicPlayer.voice_stop w vc) as [vc1|]; [|by repeat split].
  all: destruct (MusicPlayer.FFmpegPCMAudio w _ _ _) as [src|];
    [|by repeat split].
  all: destruct (MusicPlayer.PCMVolumeTransformer w src _) as [src'|];
    [|by repeat split].
  all: destruct (MusicPlayer.voice_play w vc1 src') as [vc2|];
    [|by repeat split].
  all: simpl; repeat split; try done; try (by eexists).
  all: exists track; split; [done|lia].
Qed.
End SeekFrame.

(** ** Titles for display, and what [from_dict] reads *)

Section TrackFacts.
Implicit Types (s : string) (t : Track.t) (n : nat).










End TrackFacts.

(** ** What [next] writes to the history *)

Section History.
Import MusicQueue.
Implicit Types (q : MusicQueue.t).

(** X18.  On a queue with a valid cursor, every [next], in every loop
    mode and also when it returns [None] at the end of the queue,
    appends the track that was current to the history, dropping the
    oldest entry when that makes more than 50: the track left behind
    is always the latest history entry. *)
Theorem next_records_current q :
  0 <= _current_index q < size q →
  ∃ track r q',
    current q = Some track
    ∧ next q = Return r q'
    ∧ _history q' = (if 50 <? Py.len (_history q) + 1
                     then drop 1 (_history q ++ [track])
                     else _history q ++ [track])
    ∧ last (_history q') = Some track.
Proof.
  intros Hc.
  destruct (lookup_in_range (_tracks q) (_current_index q) Hc) as [track Ht].
  assert (Hcur : current q = Some track) by (by rewrite current_in_range).
  set (h := if 50 <? Py.len (_history q) + 1
            then drop 1 (_history q ++ [track])
            else _history q ++ [track]).
  assert (Hrec : record_current q = Return tt (set_history h q)).
  { unfold record_current, h. rewrite Hcur. cbv zeta.
    rewrite len_app. change (Py.len [track]) with 1.
    destruct (Z.ltb_spec 50 (Py.len (_history q) + 1)); [|done].
    destruct (pop_in_range (_history q ++ [track]) 0) as (x & _ & ->);
      [rewrite len_app; change (Py.len [track]) with 1; lia|].
    by destruct (_history q). }
  assert (Hlast : last h = Some track).
  { unfold h. destruct (Z.ltb_spec 50 (Py.len (_history q) + 1)) as [Hfull|_].
    - destruct (_history q) as [|a h0]; [unfold Py.len in Hfull; simpl in Hfull; lia|].
      simpl. rewrite drop_0. apply last_snoc.
    - apply last_snoc. }
  exists track. unfold next, is_empty.
  destruct (Z.eqb_spec (size q) 0); [lia|]. rewrite Hrec.
  change (size (set_history h q)) with (size q).
  change (_current_index (set_history h q)) with (_current_index q).
  change (_loop_mode (set_history h q)) with (_loop_mode q).
  destruct (_loop_mode q), (_current_index q + 1 <? size q);
    eexists _, _; (split; [done|]); (split; [reflexivity|]); done.
Qed.

Lemma next_records_current_witness :
  0 <= _current_index (queue_of 500 [track_A; track_B] 1 LoopMode.OFF)
     < size (queue_of 500 [track_A; track_B] 1 LoopMode.OFF)
  ∧ next (queue_of 500 [track_A; track_B] 1 LoopMode.OFF)
    = Return None
        (set_history [track_B] (queue_of 500 [track_A; track_B] 1 LoopMode.OFF)).
Proof.
  assert (Hc : 0 <= _current_index (queue_of 500 [track_A; track_B] 1 LoopMode.OFF)
               < size (queue_of 500 [track_A; track_B] 1 LoopMode.OFF)).
  { unfold size, Py.len. simpl. lia. }
  split; [exact Hc|].
  destruct (next_records_current (queue_of 500 [track_A; track_B] 1 LoopMode.OFF) Hc)
    as (track & r & q' & _ & Hrun & _).
  rewrite Hrun. by injection Hrun as <- <-.
Defined.
End History.
